(** * VoiceChat: the session orchestration engine of [GeminiLive.py]

    A shallow embedding of [KeyManager] (the credential rotator) and of
    [AudioLoop] (the session orchestrator): its queues, its five pipelines,
    the configuration task and the reconnect loop of [run].

    Python strings are modelled as [string] whose characters are read as the
    code points 0..255; a [dict] is a [gmap]; an [asyncio.Queue] is a record
    with its [maxsize] and the FIFO list of its items; what the code raises
    is a value of [exn] returned through [result]. *)

From Stdlib Require Import Ascii String.
From stdpp Require Import base option list strings gmap.
From Equations Require Import Equations.

Local Open Scope string_scope.
Local Open Scope list_scope.
Local Open Scope nat_scope.

(** ** Exceptions and fallible results *)

#[warnings="-register-all"]
Inductive exn : Type :=
| ValueError (msg : string)
| IndexError (msg : string)
| TypeError (msg : string)
| QueueEmpty
| QueueFull
| OSError (msg : string)
| ConnectionError (msg : string)
| ExceptionGroup (msg : string) (errors : list exn).

Inductive result (A : Type) : Type :=
| Ok (a : A)
| Raise (e : exn).

Arguments Ok {A} a.
Arguments Raise {A} e.

(** ** Python [str] operations used by the source *)

Module PyStr.

(** Truthiness of a [str]: the empty string is falsy. *)
Definition truthy (s : string) : bool :=
  match s with
  | EmptyString => false
  | String _ _ => true
  end.

(** [str.isspace] for one character (code points below 256). *)
Definition isspace (c : ascii) : bool :=
  let n := nat_of_ascii c in
  (((9 <=? n) && (n <=? 13)) || ((28 <=? n) && (n <=? 32))
   || (n =? 133) || (n =? 160))%nat.

Fixpoint lstrip (s : string) : string :=
  match s with
  | EmptyString => EmptyString
  | String c s' => if isspace c then lstrip s' else s
  end.

Fixpoint rstrip (s : string) : string :=
  match s with
  | EmptyString => EmptyString
  | String c s' =>
      match rstrip s' with
      | EmptyString => if isspace c then EmptyString else String c EmptyString
      | r => String c r
      end
  end.

(** [s.strip()] *)
Definition strip (s : string) : string := rstrip (lstrip s).

(** [s.split(sep)] for a one-character separator: always at least one
    piece, empty pieces are kept. *)
Fixpoint split (s : string) (sep : ascii) : list string :=
  match s with
  | EmptyString => [EmptyString]
  | String c s' =>
      if Ascii.eqb c sep then EmptyString :: split s' sep
      else match split s' sep with
           | [] => [String c EmptyString]
           | w :: ws => String c w :: ws
           end
  end.

(** [str.lower] for one character: A-Z, and the Latin-1 capitals
    (192..222 without the multiplication sign 215). *)
Definition lower_char (c : ascii) : ascii :=
  let n := nat_of_ascii c in
  if (((65 <=? n) && (n <=? 90))
      || ((192 <=? n) && (n <=? 222) && negb (n =? 215)))%nat
  then ascii_of_nat (n + 32) else c.

Fixpoint lower (s : string) : string :=
  match s with
  | EmptyString => EmptyString
  | String c s' => String (lower_char c) (lower s')
  end.

(** [a or b] on strings *)
Definition or_else (a b : string) : string := if truthy a then a else b.

End PyStr.

(** ** [random.shuffle]

    The generator is a sequence of raw draws and a position in it;
    [randbelow n] reduces the next draw modulo [n].  [shuffle] is the
    loop of the standard library: for [i] from [len(x) - 1] down to [1],
    exchange [x[i]] with [x[randbelow (i + 1)]]. *)

Record Random : Type := mkRandom { draws : nat → nat; pos : nat }.

Definition randbelow (n : nat) (g : Random) : nat * Random :=
  (draws g (pos g) mod n, mkRandom (draws g) (S (pos g))).

(** [x[i], x[j] = x[j], x[i]] *)
Definition exchange {A} (x : list A) (i j : nat) : list A :=
  match x !! i, x !! j with
  | Some xi, Some xj => <[j := xi]> (<[i := xj]> x)
  | _, _ => x
  end.

Fixpoint shuffle_from {A} (i : nat) (x : list A) (g : Random) : list A * Random :=
  match i with
  | 0 => (x, g)
  | S i' =>
      let '(j, g') := randbelow (i + 1) g in
      shuffle_from i' (exchange x i j) g'
  end.

Definition shuffle {A} (x : list A) (g : Random) : list A * Random :=
  shuffle_from (length x - 1) x g.

(** ** KeyManager *)

Record KeyManager : Type := mkKeyManager {
  _keys : list string;
  _key_queue : list string;
  rng : Random
}.

Definition _load_api_keys (env : option string) : result (list string) :=
  let keys_str := default "" env in
  if negb (PyStr.truthy keys_str) then
    Raise (ValueError "API keys configuration error")
  else
    let keys :=
      map PyStr.strip
          (List.filter (λ k, PyStr.truthy (PyStr.strip k)) (PyStr.split keys_str ",")) in
    match keys with
    | [] => Raise (ValueError "No valid API keys")
    | _ :: _ => Ok keys
    end.

Definition _initialize_queue (km : KeyManager) : KeyManager :=
  let '(keys_copy, g) := shuffle (_keys km) (rng km) in
  mkKeyManager (_keys km) keys_copy g.

(** [deque.popleft] raises [IndexError] on an empty deque. *)
Definition get_next_key (km : KeyManager) : result (string * KeyManager) :=
  let km1 := match _key_queue km with
             | [] => _initialize_queue km
             | _ :: _ => km
             end in
  match _key_queue km1 with
  | [] => Raise (IndexError "pop from an empty deque")
  | k :: q => Ok (k, mkKeyManager (_keys km1) q (rng km1))
  end.

(** [KeyManager.__init__] *)
Definition KeyManager_init (env : option string) (g : Random) : result KeyManager :=
  match _load_api_keys env with
  | Raise e => Raise e
  | Ok keys => Ok (_initialize_queue (mkKeyManager keys [] g))
  end.

(** [n] successive calls of [get_next_key]. *)
Fixpoint draw_keys (n : nat) (km : KeyManager) : result (list string * KeyManager) :=
  match n with
  | 0 => Ok ([], km)
  | S n' =>
      match get_next_key km with
      | Raise e => Raise e
      | Ok (k, km') =>
          match draw_keys n' km' with
          | Raise e => Raise e
          | Ok (ks, km'') => Ok (k :: ks, km'')
          end
      end
  end.

(** ** [asyncio.Queue] *)

Record Queue (A : Type) : Type := mkQueue { maxsize : nat; items : list A }.
Arguments mkQueue {A} maxsize items.
Arguments maxsize {A} q.
Arguments items {A} q.

Module Q.

(** [asyncio.Queue(maxsize=n)]; [Queue()] is [new 0]: unbounded. *)
Definition new {A} (n : nat) : Queue A := mkQueue n [].

Definition qsize {A} (q : Queue A) : nat := length (items q).

Definition empty {A} (q : Queue A) : bool := Nat.eqb (qsize q) 0.

(** [if self._maxsize <= 0: return False
     else: return self.qsize() >= self._maxsize] *)
Definition full {A} (q : Queue A) : bool :=
  if Nat.leb (maxsize q) 0 then false else Nat.leb (maxsize q) (qsize q).

Definition put_nowait {A} (x : A) (q : Queue A) : result (Queue A) :=
  if full q then Raise QueueFull else Ok (mkQueue (maxsize q) (items q ++ [x])).

Definition get_nowait {A} (q : Queue A) : result (A * Queue A) :=
  match items q with
  | [] => Raise QueueEmpty
  | x :: rest => Ok (x, mkQueue (maxsize q) rest)
  end.

(** [await q.put(x)]: [None] is the caller left suspended, on a full
    queue; nothing is changed then. *)
Definition put {A} (x : A) (q : Queue A) : option (Queue A) :=
  if full q then None else Some (mkQueue (maxsize q) (items q ++ [x])).

(** [await q.get()]: [None] is the caller left suspended, on an empty
    queue. *)
Definition get {A} (q : Queue A) : option (A * Queue A) :=
  match items q with
  | [] => None
  | x :: rest => Some (x, mkQueue (maxsize q) rest)
  end.

End Q.

(** ** Data of the orchestrator *)

Definition bytes : Type := list Byte.byte.

(** [{"data": data, "mime_type": "audio/pcm"}] *)
Record AudioChunk : Type := mkChunk { data : bytes; mime_type : string }.

(** The two shapes of [session.send]. *)
Inductive message : Type :=
| RealtimeInput (msg : AudioChunk)
| TextInput (input : string) (end_of_turn : bool).

(** One element of a turn of [session.receive()]. *)
Record Response : Type := mkResponse {
  response_data : option bytes;
  response_text : option string
}.

(** The [config] dict that [run] builds for [live.connect]. *)
Record LiveConfig : Type := mkLiveConfig {
  response_modalities : list string;
  system_instruction_part : string;
  speech_config : option string
}.

Record Client : Type := mkClient { api_key : string; api_version : string }.

Record Session : Type := mkSession {
  session_model : string;
  session_config : LiveConfig;
  session_client : Client;
  closed : bool
}.

Record Stream : Type := mkStream { rate : N; stream_closed : bool }.

Inductive task_state : Type :=
| Running
| Done
| Failed (e : exn)
| Cancelled.

Definition DEFAULT_VOICE : string := "Puck".
Definition DEFAULT_SYSTEM_INST : string :=
  "You are a helpful assistant and answer in a friendly tone.".
Definition DEFAULT_RESPONSE_MODE : string := "AUDIO".
Definition SEND_SAMPLE_RATE : N := 16000%N.
Definition RECEIVE_SAMPLE_RATE : N := 24000%N.
Definition MODEL : string := "models/gemini-2.0-flash-exp".
Definition MAX_RETRIES : nat := 3.
Definition RETRY_DELAY : nat := 2.

Record AudioLoop : Type := mkAudioLoop {
  key_manager : KeyManager;
  audio_in_queue : Queue bytes;
  out_queue : Queue AudioChunk;
  external_input_queue : Queue string;
  config_update_queue : Queue (gmap string string);
  voice : string;
  system_instruction : string;
  response_mode : string;
  session : option Session;
  client : option Client;
  audio_stream : option Stream;
  is_running : bool;
  _config_task : option task_state
}.

Definition with_key_manager (km : KeyManager) (a : AudioLoop) : AudioLoop :=
  mkAudioLoop km (audio_in_queue a) (out_queue a) (external_input_queue a)
    (config_update_queue a) (voice a) (system_instruction a) (response_mode a)
    (session a) (client a) (audio_stream a) (is_running a) (_config_task a).

Definition with_audio_in_queue (q : Queue bytes) (a : AudioLoop) : AudioLoop :=
  mkAudioLoop (key_manager a) q (out_queue a) (external_input_queue a)
    (config_update_queue a) (voice a) (system_instruction a) (response_mode a)
    (session a) (client a) (audio_stream a) (is_running a) (_config_task a).

Definition with_out_queue (q : Queue AudioChunk) (a : AudioLoop) : AudioLoop :=
  mkAudioLoop (key_manager a) (audio_in_queue a) q (external_input_queue a)
    (config_update_queue a) (voice a) (system_instruction a) (response_mode a)
    (session a) (client a) (audio_stream a) (is_running a) (_config_task a).

Definition with_external_input_queue (q : Queue string) (a : AudioLoop) : AudioLoop :=
  mkAudioLoop (key_manager a) (audio_in_queue a) (out_queue a) q
    (config_update_queue a) (voice a) (system_instruction a) (response_mode a)
    (session a) (client a) (audio_stream a) (is_running a) (_config_task a).

Definition with_config_update_queue (q : Queue (gmap string string)) (a : AudioLoop)
  : AudioLoop :=
  mkAudioLoop (key_manager a) (audio_in_queue a) (out_queue a) (external_input_queue a)
    q (voice a) (system_instruction a) (response_mode a)
    (session a) (client a) (audio_stream a) (is_running a) (_config_task a).

Definition with_voice (v : string) (a : AudioLoop) : AudioLoop :=
  mkAudioLoop (key_manager a) (audio_in_queue a) (out_queue a) (external_input_queue a)
    (config_update_queue a) v (system_instruction a) (response_mode a)
    (session a) (client a) (audio_stream a) (is_running a) (_config_task a).

Definition with_system_instruction (s : string) (a : AudioLoop) : AudioLoop :=
  mkAudioLoop (key_manager a) (audio_in_queue a) (out_queue a) (external_input_queue a)
    (config_update_queue a) (voice a) s (response_mode a)
    (session a) (client a) (audio_stream a) (is_running a) (_config_task a).

Definition with_response_mode (r : string) (a : AudioLoop) : AudioLoop :=
  mkAudioLoop (key_manager a) (audio_in_queue a) (out_queue a) (external_input_queue a)
    (config_update_queue a) (voice a) (system_instruction a) r
    (session a) (client a) (audio_stream a) (is_running a) (_config_task a).

Definition with_session (s : option Session) (a : AudioLoop) : AudioLoop :=
  mkAudioLoop (key_manager a) (audio_in_queue a) (out_queue a) (external_input_queue a)
    (config_update_queue a) (voice a) (system_instruction a) (response_mode a)
    s (client a) (audio_stream a) (is_running a) (_config_task a).

Definition with_client (c : option Client) (a : AudioLoop) : AudioLoop :=
  mkAudioLoop (key_manager a) (audio_in_queue a) (out_queue a) (external_input_queue a)
    (config_update_queue a) (voice a) (system_instruction a) (response_mode a)
    (session a) c (audio_stream a) (is_running a) (_config_task a).

Definition with_audio_stream (s : option Stream) (a : AudioLoop) : AudioLoop :=
  mkAudioLoop (key_manager a) (audio_in_queue a) (out_queue a) (external_input_queue a)
    (config_update_queue a) (voice a) (system_instruction a) (response_mode a)
    (session a) (client a) s (is_running a) (_config_task a).

Definition with_is_running (b : bool) (a : AudioLoop) : AudioLoop :=
  mkAudioLoop (key_manager a) (audio_in_queue a) (out_queue a) (external_input_queue a)
    (config_update_queue a) (voice a) (system_instruction a) (response_mode a)
    (session a) (client a) (audio_stream a) b (_config_task a).

Definition with_config_task (t : option task_state) (a : AudioLoop) : AudioLoop :=
  mkAudioLoop (key_manager a) (audio_in_queue a) (out_queue a) (external_input_queue a)
    (config_update_queue a) (voice a) (system_instruction a) (response_mode a)
    (session a) (client a) (audio_stream a) (is_running a) t.

(** The attributes that [reset_state] assigns (lines 90-104). *)
Definition attributes_after_reset (km : KeyManager) : AudioLoop :=
  mkAudioLoop km
    (Q.new 0) (Q.new 5) (Q.new 0) (Q.new 0)
    DEFAULT_VOICE DEFAULT_SYSTEM_INST DEFAULT_RESPONSE_MODE
    None None None false None.

(** [reset_state]: the configuration task is cancelled and the capture
    stream closed when there is one, then every attribute but
    [key_manager] is assigned anew. *)
Definition reset_state (a : AudioLoop) : AudioLoop :=
  attributes_after_reset (key_manager a).

(** [AudioLoop.__init__]: [KeyManager()], then [reset_state()]. *)
Definition AudioLoop_init (env : option string) (g : Random) : result AudioLoop :=
  match KeyManager_init env g with
  | Raise e => Raise e
  | Ok km => Ok (attributes_after_reset km)
  end.

(** ** Effects on the outside world, in the order they happen *)

Inductive effect : Type :=
| EKey (k : string)
| ENewClient (k : string)
| ESleep (d : nat)
| EConnect (c : Client) (cfg : LiveConfig)
| EClose
| ESend (m : message)
| EPrint (text : string)
| EPlay (b : bytes).

(** ** [initialize_client] *)

(** The [try] block of one attempt: a key is drawn, then the client is
    built.  [new_client] stands for [genai.Client(api_key=..)]; its first
    argument is the value of [retries] at the attempt. *)
Definition try_new_client (new_client : nat → string → result Client)
    (retries : nat) (self : AudioLoop) : result Client * AudioLoop * list effect :=
  match get_next_key (key_manager self) with
  | Raise e => (Raise e, self, [])
  | Ok (k, km) =>
      (new_client retries k, with_key_manager km self, [EKey k; ENewClient k])
  end.

(** [raise last_error]; raising [None] is a [TypeError]. *)
Definition raise_last (last_error : option exn) : exn :=
  match last_error with
  | Some e => e
  | None => TypeError "exceptions must derive from BaseException"
  end.

Equations? initialize_client_from (new_client : nat → string → result Client)
    (retries : nat) (last_error : option exn) (self : AudioLoop) (tr : list effect)
  : result unit * AudioLoop * list effect by wf (MAX_RETRIES - retries) lt :=
  initialize_client_from new_client retries last_error self tr
    with lt_dec retries MAX_RETRIES => {
    | right _ := (Raise (raise_last last_error), self, tr);
    | left _ with try_new_client new_client retries self => {
      | (Ok c, self', tr') := (Ok tt, with_client (Some c) self', tr ++ tr');
      | (Raise e, self', tr') :=
          initialize_client_from new_client (retries + 1) (Some e) self'
            (tr ++ tr' ++ if Nat.ltb (retries + 1) MAX_RETRIES
                          then [ESleep RETRY_DELAY] else [])
      }
    }.
Proof. lia. Qed.

Definition initialize_client (new_client : nat → string → result Client)
    (self : AudioLoop) : result unit * AudioLoop * list effect :=
  initialize_client_from new_client 0 None self [].

Definition demo_keys : KeyManager :=
  mkKeyManager ["A"; "B"] [] (mkRandom (λ i, i) 0).

(** ** [configure_session] *)

(** [d.get(k, dflt)] *)
Definition dict_get (d : gmap string string) (k dflt : string) : string :=
  default dflt (d !! k).

(** The three assignments of lines 137-139. *)
Definition apply_config (new_config : gmap string string) (self : AudioLoop) : AudioLoop :=
  let self1 := with_voice (dict_get new_config "voice" (voice self)) self in
  let self2 :=
    with_system_instruction
      (dict_get new_config "system_instruction" (system_instruction self1)) self1 in
  with_response_mode (dict_get new_config "response_mode" (response_mode self2)) self2.

(** One round of the [while True] of [configure_session]: suspended on an
    empty queue, else the update is taken and applied. *)
Definition configure_session_step (self : AudioLoop) : AudioLoop :=
  match Q.get (config_update_queue self) with
  | None => self
  | Some (new_config, q) => apply_config new_config (with_config_update_queue q self)
  end.

(** ** [send_text] *)

Inductive loop_control : Type :=
| Break
| Continue
| Raised (e : exn).

(** The body of the [while True] for one dequeued [text]; [send] is
    [session.send]. Returns what the loop does next and the messages
    handed to [send]. *)
Definition send_text_body (send : message → option exn) (text : string)
  : loop_control * list message :=
  if String.eqb (PyStr.lower text) "q" then (Break, [])
  else
    let m := TextInput (PyStr.or_else text ".") true in
    match send m with
    | None => (Continue, [m])
    | Some e => (Raised e, [m])
    end.

(** ** [receive_audio] *)

Definition bytes_truthy (b : bytes) : bool :=
  match b with [] => false | _ :: _ => true end.

(** The body of [async for response in turn]. *)
Definition on_response (r : Response) (self : AudioLoop)
  : result (AudioLoop * list effect) :=
  match response_data r with
  | Some d =>
      if bytes_truthy d then
        match Q.put_nowait d (audio_in_queue self) with
        | Raise e => Raise e
        | Ok q => Ok (with_audio_in_queue q self, [])
        end
      else
        match response_text r with
        | Some t => if PyStr.truthy t then Ok (self, [EPrint t]) else Ok (self, [])
        | None => Ok (self, [])
        end
  | None =>
      match response_text r with
      | Some t => if PyStr.truthy t then Ok (self, [EPrint t]) else Ok (self, [])
      | None => Ok (self, [])
      end
  end.

(** [while not q.empty(): q.get_nowait()] *)
Equations? drain {A} (q : Queue A) : result (Queue A) by wf (Q.qsize q) lt :=
  drain q with Logic.inspect (Q.empty q) => {
    | exist _ true _ := Ok q;
    | exist _ false _ with Logic.inspect (Q.get_nowait q) => {
      | exist _ (Raise e) _ := Raise e;
      | exist _ (Ok (_, q')) Hget := drain q'
      }
    }.
Proof.
  unfold Q.get_nowait in Hget. unfold Q.qsize.
  destruct (items q) as [|x rest] eqn:Hq; simplify_eq/=. lia.
Qed.

(** The end of a turn (lines 204-205). *)
Definition on_turn_complete (self : AudioLoop) : result AudioLoop :=
  match drain (audio_in_queue self) with
  | Raise e => Raise e
  | Ok q => Ok (with_audio_in_queue q self)
  end.

(** ** The task group of [run] *)

Inductive pipeline : Type :=
| SendText
| SendRealtime
| ListenAudio
| ReceiveAudio
| PlayAudio.

Global Instance pipeline_eq_dec : EqDecision pipeline.
Proof. solve_decision. Defined.

Definition all_pipelines : list pipeline :=
  [SendText; SendRealtime; ListenAudio; ReceiveAudio; PlayAudio].

(** The five tasks created at lines 253-257. *)
Record TaskGroup : Type := mkTaskGroup {
  t_send_text : task_state;
  t_send_realtime : task_state;
  t_listen_audio : task_state;
  t_receive_audio : task_state;
  t_play_audio : task_state
}.

Definition task (tg : TaskGroup) (p : pipeline) : task_state :=
  match p with
  | SendText => t_send_text tg
  | SendRealtime => t_send_realtime tg
  | ListenAudio => t_listen_audio tg
  | ReceiveAudio => t_receive_audio tg
  | PlayAudio => t_play_audio tg
  end.

Definition set_task (p : pipeline) (s : task_state) (tg : TaskGroup) : TaskGroup :=
  match p with
  | SendText =>
      mkTaskGroup s (t_send_realtime tg) (t_listen_audio tg) (t_receive_audio tg)
        (t_play_audio tg)
  | SendRealtime =>
      mkTaskGroup (t_send_text tg) s (t_listen_audio tg) (t_receive_audio tg)
        (t_play_audio tg)
  | ListenAudio =>
      mkTaskGroup (t_send_text tg) (t_send_realtime tg) s (t_receive_audio tg)
        (t_play_audio tg)
  | ReceiveAudio =>
      mkTaskGroup (t_send_text tg) (t_send_realtime tg) (t_listen_audio tg) s
        (t_play_audio tg)
  | PlayAudio =>
      mkTaskGroup (t_send_text tg) (t_send_realtime tg) (t_listen_audio tg)
        (t_receive_audio tg) s
  end.

Definition map_tasks (f : pipeline → task_state → task_state) (tg : TaskGroup)
  : TaskGroup :=
  mkTaskGroup (f SendText (t_send_text tg)) (f SendRealtime (t_send_realtime tg))
    (f ListenAudio (t_listen_audio tg)) (f ReceiveAudio (t_receive_audio tg))
    (f PlayAudio (t_play_audio tg)).

Definition no_tasks : TaskGroup := mkTaskGroup Done Done Done Done Done.
Definition spawned : TaskGroup := mkTaskGroup Running Running Running Running Running.

Definition is_running_task (s : task_state) : bool :=
  match s with Running => true | _ => false end.

Definition is_failed (s : task_state) : bool :=
  match s with Failed _ => true | _ => false end.

Definition failures (tg : TaskGroup) : list exn :=
  omap (λ p, match task tg p with Failed e => Some e | _ => None end) all_pipelines.

(** What a pipeline's coroutine does with an exception raised inside it:
    [send_text] has [except Exception] around its loop (lines 158-159) and
    returns; the other four have no handler. *)
Definition on_exception (p : pipeline) (e : exn) : task_state :=
  match p with
  | SendText => Done
  | _ => Failed e
  end.

(** What a pipeline's coroutine does when it is cancelled: [send_text]
    catches [CancelledError] (lines 156-157) and returns. *)
Definition on_cancel (p : pipeline) (s : task_state) : task_state :=
  match s with
  | Running => match p with SendText => Done | _ => Cancelled end
  | _ => s
  end.

(** Where the capture pipeline stands in [listen_audio]. *)
Inductive capture_state : Type :=
| CapOpening
| CapReading
| CapPutting (c : AudioChunk).

(** Program points of [run]. *)
Inductive run_pc : Type :=
| AtInit        (* line 222: before the first [initialize_client] *)
| AtConnect     (* line 228: top of the [while True] *)
| InGroup       (* lines 249-259 and the exit of the [async with] *)
| InHandler     (* lines 262-265: [except Exception] of the loop *)
| Returned.     (* after [finally] *)

Global Instance run_pc_eq_dec : EqDecision run_pc.
Proof. solve_decision. Defined.

Record Machine : Type := mkMachine {
  self : AudioLoop;
  pc : run_pc;
  tasks : TaskGroup;
  capture : capture_state;
  trace : list effect
}.

Definition boot (a : AudioLoop) : Machine := mkMachine a AtInit no_tasks CapOpening [].

Definition with_self (a : AudioLoop) (m : Machine) : Machine :=
  mkMachine a (pc m) (tasks m) (capture m) (trace m).
Definition with_pc (c : run_pc) (m : Machine) : Machine :=
  mkMachine (self m) c (tasks m) (capture m) (trace m).
Definition with_tasks (tg : TaskGroup) (m : Machine) : Machine :=
  mkMachine (self m) (pc m) tg (capture m) (trace m).
Definition with_capture (c : capture_state) (m : Machine) : Machine :=
  mkMachine (self m) (pc m) (tasks m) c (trace m).
Definition emit (es : list effect) (m : Machine) : Machine :=
  mkMachine (self m) (pc m) (tasks m) (capture m) (trace m ++ es).

(** Lines 229-243. *)
Definition build_config (a : AudioLoop) : LiveConfig :=
  mkLiveConfig [response_mode a] (system_instruction a)
    (if String.eqb (response_mode a) "AUDIO" then Some (voice a) else None).

(** The session object is closed when its [async with] is left;
    [self.session] still names it. *)
Definition close_session (a : AudioLoop) : AudioLoop :=
  match session a with
  | Some s =>
      with_session
        (Some (mkSession (session_model s) (session_config s) (session_client s) true)) a
  | None => a
  end.

(** [finally] of [run]: the configuration task is cancelled, then
    [reset_state]. *)
Definition finish (m : Machine) : Machine :=
  mkMachine (reset_state (self m)) Returned (tasks m) (capture m) (trace m).

(** The group is left: every task still running is cancelled, the session
    is closed. *)
Definition leave_group (m : Machine) : Machine :=
  emit [EClose]
    (with_self (close_session (self m))
       (with_tasks (map_tasks on_cancel (tasks m)) m)).

(** The exit of the [async with] (TaskGroup semantics): a failed task
    cancels the others and the group raises into the handler of the loop;
    when every task has returned the block ends and the loop goes round;
    otherwise the exit keeps waiting for the tasks that run. *)
Definition settle (m : Machine) : Machine :=
  match failures (tasks m) with
  | _ :: _ => with_pc InHandler (leave_group m)
  | [] =>
      if forallb (λ p, negb (is_running_task (task (tasks m) p))) all_pipelines
      then with_pc AtConnect (leave_group m)
      else m
  end.

(** ** [run] as a machine driven by what happens around it *)

Inductive event : Type :=
| Start (new_client : nat → string → result Client)
| Connect (outcome : option exn)
| Recover (new_client : nat → string → result Client)
| StepSendText (send_outcome : option exn)
| StepSendRealtime
| StepListen (d : bytes)
| RecvResponse (r : Response)
| RecvTurnComplete
| StepPlay
| Raises (p : pipeline) (e : exn)
| StepConfig
| Cancel
| UiSendText (text : string)
| UiUpdateConfig (u : gmap string string).

(** Lines 222-225; a failure goes to the outer handler and [finally]. *)
Definition run_start (new_client : nat → string → result Client) (m : Machine) : Machine :=
  let '(r, a, tr) := initialize_client new_client (self m) in
  match r with
  | Raise _ => finish (emit tr (with_self a m))
  | Ok _ => with_pc AtConnect (emit tr (with_self (with_config_task (Some Running) a) m))
  end.

(** Lines 229-257: the configuration is built from the attributes as they
    are now, the connection is opened and the five tasks are created. *)
Definition run_connect (outcome : option exn) (m : Machine) : Machine :=
  match client (self m) with
  | None => with_pc InHandler m
  | Some c =>
      let cfg := build_config (self m) in
      match outcome with
      | Some _ => with_pc InHandler (emit [EConnect c cfg] m)
      | None =>
          mkMachine
            (with_is_running true
               (with_session (Some (mkSession MODEL cfg c false)) (self m)))
            InGroup spawned CapOpening (trace m ++ [EConnect c cfg])
      end
  end.

(** Lines 262-265. *)
Definition run_recover (new_client : nat → string → result Client) (m : Machine)
  : Machine :=
  let '(r, a, tr) := initialize_client new_client (self m) in
  match r with
  | Raise _ => finish (emit tr (with_self a m))
  | Ok _ => with_pc AtConnect (emit (tr ++ [ESleep RETRY_DELAY]) (with_self a m))
  end.

(** A task ends in state [s]; the group reacts. *)
Definition end_task (p : pipeline) (s : task_state) (m : Machine) : Machine :=
  settle (with_tasks (set_task p s (tasks m)) m).

Definition step_send_text (send_outcome : option exn) (m : Machine) : Machine :=
  match Q.get (external_input_queue (self m)) with
  | None => m
  | Some (text, q) =>
      let m1 := with_self (with_external_input_queue q (self m)) m in
      let '(ctl, sent) := send_text_body (λ _, send_outcome) text in
      let m2 := emit (map ESend sent) m1 in
      match ctl with
      | Continue => m2
      | Break => end_task SendText Done m2
      | Raised e => end_task SendText (on_exception SendText e) m2
      end
  end.

Definition step_send_realtime (m : Machine) : Machine :=
  match Q.get (out_queue (self m)) with
  | None => m
  | Some (msg, q) =>
      emit [ESend (RealtimeInput msg)] (with_self (with_out_queue q (self m)) m)
  end.

(** [await self.out_queue.put(c)] of the capture pipeline. *)
Definition capture_put (c : AudioChunk) (m : Machine) : Machine :=
  match Q.put c (out_queue (self m)) with
  | None => with_capture (CapPutting c) m
  | Some q => with_capture CapReading (with_self (with_out_queue q (self m)) m)
  end.

Definition step_listen (d : bytes) (m : Machine) : Machine :=
  match capture m with
  | CapOpening =>
      with_capture CapReading
        (with_self (with_audio_stream (Some (mkStream SEND_SAMPLE_RATE false)) (self m)) m)
  | CapReading => capture_put (mkChunk d "audio/pcm") m
  | CapPutting c => capture_put c m
  end.

Definition recv_response (r : Response) (m : Machine) : Machine :=
  match on_response r (self m) with
  | Raise e => end_task ReceiveAudio (on_exception ReceiveAudio e) m
  | Ok (a, es) => emit es (with_self a m)
  end.

Definition recv_turn_complete (m : Machine) : Machine :=
  match on_turn_complete (self m) with
  | Raise e => end_task ReceiveAudio (on_exception ReceiveAudio e) m
  | Ok a => with_self a m
  end.

Definition step_play (m : Machine) : Machine :=
  match Q.get (audio_in_queue (self m)) with
  | None => m
  | Some (b, q) => emit [EPlay b] (with_self (with_audio_in_queue q (self m)) m)
  end.

(** The task of [run] is cancelled.  Inside the group, while [send_text]
    runs, [run] is parked at [await send_text_task] (line 259): the
    cancellation is passed on to that task, [send_text] catches it (lines
    156-157) and returns, and [run] goes on to the exit of the group, which
    waits for the other tasks.  Once [send_text] has returned, [run] is
    parked in that exit: the cancellation aborts the group, closes the
    session and leaves through [finally].  Outside the group it is raised
    at the await [run] is parked on and leaves through [finally]. *)
Definition run_cancel (m : Machine) : Machine :=
  match pc m with
  | AtInit | Returned => m
  | InGroup =>
      if is_running_task (task (tasks m) SendText)
      then end_task SendText (on_cancel SendText Running) m
      else finish (leave_group m)
  | AtConnect | InHandler => finish m
  end.

Definition in_group (p : pipeline) (m : Machine) : bool :=
  bool_decide (pc m = InGroup) && is_running_task (task (tasks m) p).

Definition step (m : Machine) (ev : event) : Machine :=
  match ev with
  | Start nc => if bool_decide (pc m = AtInit) then run_start nc m else m
  | Connect o => if bool_decide (pc m = AtConnect) then run_connect o m else m
  | Recover nc => if bool_decide (pc m = InHandler) then run_recover nc m else m
  | StepSendText o => if in_group SendText m then step_send_text o m else m
  | StepSendRealtime => if in_group SendRealtime m then step_send_realtime m else m
  | StepListen d => if in_group ListenAudio m then step_listen d m else m
  | RecvResponse r => if in_group ReceiveAudio m then recv_response r m else m
  | RecvTurnComplete => if in_group ReceiveAudio m then recv_turn_complete m else m
  | StepPlay => if in_group PlayAudio m then step_play m else m
  | Raises p e => if in_group p m then end_task p (on_exception p e) m else m
  | StepConfig =>
      match _config_task (self m) with
      | Some Running => with_self (configure_session_step (self m)) m
      | _ => m
      end
  | Cancel => run_cancel m
  | UiSendText text =>
      match Q.put text (external_input_queue (self m)) with
      | None => m
      | Some q => with_self (with_external_input_queue q (self m)) m
      end
  | UiUpdateConfig u =>
      match Q.put u (config_update_queue (self m)) with
      | None => m
      | Some q => with_self (with_config_update_queue q (self m)) m
      end
  end.

Definition run_events (m : Machine) (evs : list event) : Machine :=
  fold_left step evs m.

(** A client constructor that succeeds at once. *)
Definition client_ok : nat → string → result Client :=
  λ _ k, Ok (mkClient k "v1alpha").

Definition demo_loop : AudioLoop := attributes_after_reset demo_keys.

(** A session is up: started, connected, the five pipelines running. *)
Definition demo_active : Machine :=
  run_events (boot demo_loop) [Start client_ok; Connect None].

(** ** Scenarios and predicates of the statements *)

(** Three credentials, as loaded from the configuration value. *)
Definition three_keys : KeyManager :=
  _initialize_queue (mkKeyManager ["A"; "B"; "C"] [] (mkRandom (λ i, 2 * i + 1) 0)).

(** Three chunks are buffered for playback when the turn ends. *)
Definition demo_buffered : Machine :=
  run_events demo_active
    [RecvResponse (mkResponse (Some [Byte.x01]) None);
     RecvResponse (mkResponse (Some [Byte.x02; Byte.x03]) None);
     RecvResponse (mkResponse (Some [Byte.x04]) (Some "hi"))].

(** Every attribute but [key_manager] and [client] is the same. *)
Definition same_but_client (a a' : AudioLoop) : Prop :=
  audio_in_queue a' = audio_in_queue a
  ∧ out_queue a' = out_queue a
  ∧ external_input_queue a' = external_input_queue a
  ∧ config_update_queue a' = config_update_queue a
  ∧ voice a' = voice a
  ∧ system_instruction a' = system_instruction a
  ∧ response_mode a' = response_mode a
  ∧ session a' = session a
  ∧ audio_stream a' = audio_stream a
  ∧ is_running a' = is_running a
  ∧ _config_task a' = _config_task a
  ∧ _keys (key_manager a') = _keys (key_manager a).

Definition session_open (a : AudioLoop) : Prop :=
  ∃ s, session a = Some s ∧ closed s = false.

(** The outbound queue keeps its bound; inside the group the session is
    open; outside the group no pipeline runs. *)
Definition group_inv (m : Machine) : Prop :=
  maxsize (out_queue (self m)) = 5
  ∧ Q.qsize (out_queue (self m)) ≤ 5
  ∧ (pc m = InGroup → session_open (self m))
  ∧ (pc m ≠ InGroup → ∀ p, task (tasks m) p ≠ Running).

(** Untouched; or one chunk accepted at the tail; or the head taken and
    handed to [session.send]; or [run] has ended and [reset_state] has put a
    new queue in its place. *)
Definition out_queue_change (m m' : Machine) : Prop :=
  out_queue (self m') = out_queue (self m)
  ∨ (∃ c, Q.put c (out_queue (self m)) = Some (out_queue (self m'))
          ∧ items (out_queue (self m')) = items (out_queue (self m)) ++ [c])
  ∨ (∃ c, Q.get (out_queue (self m)) = Some (c, out_queue (self m'))
          ∧ trace m' = trace m ++ [ESend (RealtimeInput c)])
  ∨ (pc m' = Returned ∧ out_queue (self m') = Q.new 5).

(** The capture pipeline has a chunk in hand while the outbound queue is
    full. *)
Definition demo_full : Machine :=
  run_events demo_active
    [StepListen []; StepListen [Byte.x01]; StepListen [Byte.x02]; StepListen [Byte.x03];
     StepListen [Byte.x04]; StepListen [Byte.x05]; StepListen [Byte.x06]].

(** The quit token has been typed while a session is up. *)
Definition demo_quit : Machine := step demo_active (UiSendText "q").

(** The configuration the current session was opened with. *)
Definition established (a : AudioLoop) : option LiveConfig :=
  session_config <$> session a.

(** A new voice is asked for while a session is up, and applied. *)
Definition demo_updated : Machine :=
  run_events demo_active [UiUpdateConfig {[ "voice" := "Kore" ]}; StepConfig].

(** The session then fails and [run] comes back to connect. *)
Definition demo_reconnect : Machine :=
  run_events demo_updated [Raises ReceiveAudio (ConnectionError "closed"); Recover client_ok].

(** ** The control panel ([ui.py]) *)

(** [AsyncRunner.start], up to the start of the thread: a new [AudioLoop]
    is built and the three settings are assigned to it; when the
    constructor raises, the session is not started. *)
Definition AsyncRunner_start (env : option string) (g : Random)
    (voice0 system_instruction0 response_mode0 : string) : option Machine :=
  match AudioLoop_init env g with
  | Raise _ => None
  | Ok a =>
      Some (boot (with_response_mode response_mode0
                    (with_system_instruction system_instruction0
                       (with_voice voice0 a))))
  end.

(** [send_message]: the input is stripped; when something is left and the
    runner is running it is handed to [send_external_text] and appended to
    the messages shown. Returns the machine and what is appended. *)
Definition send_message (user_input : string) (running : bool) (m : Machine)
  : Machine * list string :=
  let user_input := PyStr.strip user_input in
  if PyStr.truthy user_input && running
  then (step m (UiSendText user_input), [user_input])
  else (m, []).

(** ** Observations on traces and states *)

Fixpoint mem_char (c : ascii) (s : string) : bool :=
  match s with
  | EmptyString => false
  | String c' s' => Ascii.eqb c' c || mem_char c s'
  end.

(** The chunks handed to [session.send] by [send_realtime]. *)
Definition sent_chunks (tr : list effect) : list AudioChunk :=
  omap (λ e, match e with ESend (RealtimeInput c) => Some c | _ => None end) tr.

(** The texts handed to [session.send] by [send_text]. *)
Definition sent_texts (tr : list effect) : list string :=
  omap (λ e, match e with ESend (TextInput t _) => Some t | _ => None end) tr.

(** The chunk the capture pipeline holds while its [put] is suspended. *)
Definition in_hand (c : capture_state) : list AudioChunk :=
  match c with CapPutting x => [x] | _ => [] end.

(** Captured audio, oldest first: sent, then queued, then in hand. *)
Definition flow (m : Machine) : list AudioChunk :=
  sent_chunks (trace m) ++ items (out_queue (self m)) ++ in_hand (capture m).

(** The chunk [listen_audio] reads in a step: it reads when it stands at
    its [read] (line 186), not while it opens the stream or is suspended in
    [put]. *)
Definition reads (m : Machine) (ev : event) : list AudioChunk :=
  match ev with
  | StepListen d =>
      if in_group ListenAudio m
      then match capture m with
           | CapReading => [mkChunk d "audio/pcm"]
           | _ => []
           end
      else []
  | _ => []
  end.

(** The chunks read over a run, in the order they are read. *)
Fixpoint captured (m : Machine) (evs : list event) : list AudioChunk :=
  match evs with
  | [] => []
  | ev :: evs' => reads m ev ++ captured (step m ev) evs'
  end.

(** The states a run goes through, the first one included. *)
Fixpoint trajectory (m : Machine) (evs : list event) : list Machine :=
  match evs with
  | [] => [m]
  | ev :: evs' => m :: trajectory (step m ev) evs'
  end.

(** The effects of the attempts of [initialize_client] on the keys [ks]:
    a draw and a construction per key, a sleep between two attempts. *)
Fixpoint attempts_trace (ks : list string) : list effect :=
  match ks with
  | [] => []
  | [k] => [EKey k; ENewClient k]
  | k :: ks' => EKey k :: ENewClient k :: ESleep RETRY_DELAY :: attempts_trace ks'
  end.

(** What a reconnection carries over: the four queues and the settings. *)
Definition carried (a : AudioLoop)
  : Queue bytes * Queue AudioChunk * Queue string * Queue (gmap string string)
    * string * string * string :=
  (audio_in_queue a, out_queue a, external_input_queue a, config_update_queue a,
   voice a, system_instruction a, response_mode a).

(** The capacities [reset_state] gives the four queues. *)
Definition capacities (a : AudioLoop) : Prop :=
  maxsize (audio_in_queue a) = 0
  ∧ maxsize (out_queue a) = 5
  ∧ maxsize (external_input_queue a) = 0
  ∧ maxsize (config_update_queue a) = 0.

(** Two texts wait to be sent, then a third. *)
Definition demo_texts : Machine :=
  run_events demo_active [UiSendText "hello"; UiSendText ""; UiSendText "bye"].

(** An attempt to open the live connection. *)
Definition is_connect (e : effect) : bool :=
  match e with EConnect _ _ => true | _ => false end.

(** [n] connection attempts that fail, each followed by the handler of
    the loop. *)
Definition failed_connects (n : nat) (e : exn) (nc : nat → string → result Client)
  : list event :=
  mjoin (replicate n [Connect (Some e); Recover nc]).

(** * Properties *)

(** ** Running the definitions *)

Example split_example : PyStr.split " a, ,b ,," "," = [" a"; " "; "b "; ""; ""].
Proof. reflexivity. Qed.

Example load_example : _load_api_keys (Some " a, ,b ,,") = Ok ["a"; "b"].
Proof. reflexivity. Qed.

Example load_blank : _load_api_keys (Some " , ,") = Raise (ValueError "No valid API keys").
Proof. reflexivity. Qed.

Example shuffle_example :
  fst (shuffle ["A"; "B"; "C"; "D"] (mkRandom (λ i, 2 * i + 1) 0)) = ["C"; "D"; "A"; "B"].
Proof. vm_compute. reflexivity. Qed.

Example initialize_client_demo :
  (initialize_client (λ n k, if Nat.eqb n 1 then Ok (mkClient k "v1alpha")
                             else Raise (ConnectionError k))
     (attributes_after_reset demo_keys)).2
  = [EKey "B"; ENewClient "B"; ESleep 2; EKey "A"; ENewClient "A"].
Proof. vm_compute. reflexivity. Qed.

Example drain_demo :
  drain (mkQueue 0 [[Byte.x01]; [Byte.x02; Byte.x03]; []]) = Ok (mkQueue 0 []).
Proof. vm_compute. reflexivity. Qed.

Example demo_active_pc : pc demo_active = InGroup ∧ tasks demo_active = spawned.
Proof. vm_compute. done. Qed.

(** ** Strings *)

Module PyStrFacts.
Import PyStr.

Lemma truthy_true (s : string) : truthy s = true ↔ s ≠ "".
Proof. destruct s; simpl; split; intros; try done. Qed.

Lemma truthy_false (s : string) : truthy s = false ↔ s = "".
Proof. destruct s; simpl; split; intros; try done. Qed.

Lemma lower_empty (s : string) : lower s = "" → s = "".
Proof. destruct s; simpl; [done | discriminate]. Qed.

Lemma lower_char_q (c : ascii) :
  lower_char c = "q"%char → c = "q"%char ∨ c = "Q"%char.
Proof.
  destruct c as [[] [] [] [] [] [] [] []]; vm_compute; intros H;
    first [ discriminate H | left; reflexivity | right; reflexivity ].
Qed.

Lemma lower_is_q (s : string) : lower s = "q" ↔ s = "q" ∨ s = "Q".
Proof.
  split.
  - destruct s as [|c s]; simpl; [discriminate|].
    intros H. injection H as Hc Hs. apply lower_empty in Hs. subst s.
    destruct (lower_char_q c Hc); subst; auto.
  - intros [-> | ->]; reflexivity.
Qed.

Lemma or_else_spec (a b : string) :
  or_else a b = match a with EmptyString => b | _ => a end.
Proof. destruct a; reflexivity. Qed.
End PyStrFacts.

(** ** Lists *)

Lemma filter_nil_Forall {A} (f : A → bool) (l : list A) :
  List.filter f l = [] ↔ Forall (λ x, f x = false) l.
Proof.
  induction l as [|x l IH]; simpl.
  - split; auto.
  - destruct (f x) eqn:Hx; split.
    + discriminate.
    + intros H. inversion H; congruence.
    + intros H. constructor; [done | by apply IH].
    + intros H. inversion H; subst. by apply IH.
Qed.

Lemma filter_Forall_true {A} (f : A → bool) (l : list A) :
  Forall (λ x, f x = true) (List.filter f l).
Proof.
  induction l as [|x l IH]; simpl; [constructor|].
  destruct (f x) eqn:Hx; [constructor|]; done.
Qed.

(** ** The shuffle is a permutation *)

Lemma exchange_perm {A} (x : list A) (i j : nat) : exchange x i j ≡ₚ x.
Proof.
  unfold exchange.
  destruct (x !! i) as [xi|] eqn:Hi; [|done].
  destruct (x !! j) as [xj|] eqn:Hj; [|done].
  by apply Permutation_insert_swap.
Qed.

Lemma shuffle_from_perm {A} (i : nat) (x : list A) (g : Random) :
  (shuffle_from i x g).1 ≡ₚ x.
Proof.
  revert x g. induction i as [|i IH]; intros x g; simpl; [done|].
  rewrite IH. apply exchange_perm.
Qed.

Lemma shuffle_perm {A} (x : list A) (g : Random) : (shuffle x g).1 ≡ₚ x.
Proof. apply shuffle_from_perm. Qed.

(** ** The rotator *)

Lemma initialize_queue_keys (km : KeyManager) :
  _keys (_initialize_queue km) = _keys km.
Proof. unfold _initialize_queue. by destruct (shuffle _ _). Qed.

Lemma initialize_queue_queue (km : KeyManager) :
  _key_queue (_initialize_queue km) = (shuffle (_keys km) (rng km)).1.
Proof. unfold _initialize_queue. by destruct (shuffle _ _). Qed.

Lemma initialize_queue_rng (km : KeyManager) :
  rng (_initialize_queue km) = (shuffle (_keys km) (rng km)).2.
Proof. unfold _initialize_queue. by destruct (shuffle _ _). Qed.

Lemma initialize_queue_perm (km : KeyManager) :
  _key_queue (_initialize_queue km) ≡ₚ _keys km.
Proof. rewrite initialize_queue_queue. apply shuffle_perm. Qed.

Lemma perm_nonempty {A} (l k : list A) : l ≡ₚ k → k ≠ [] → l ≠ [].
Proof. intros H Hk ->. apply Permutation_nil_l in H. by subst. Qed.

(** On a queue that holds keys, [get_next_key] pops the head. *)
Lemma get_next_key_pop (keys q : list string) (k : string) (g : Random) :
  get_next_key (mkKeyManager keys (k :: q) g) = Ok (k, mkKeyManager keys q g).
Proof. reflexivity. Qed.

(** On an empty queue it refills first. *)
Lemma get_next_key_refill (km : KeyManager) :
  _key_queue km = [] → get_next_key km = get_next_key (_initialize_queue km).
Proof.
  intros Hq. unfold get_next_key at 1. rewrite Hq. cbv zeta.
  destruct (_key_queue (_initialize_queue km)) as [|k q] eqn:Hk.
  - unfold get_next_key. rewrite Hk. cbv zeta.
    rewrite initialize_queue_queue, initialize_queue_keys.
    rewrite initialize_queue_queue in Hk.
    pose proof (shuffle_perm (_keys km) (rng km)) as Hp.
    rewrite Hk in Hp. apply Permutation_nil_l in Hp. rewrite <- Hp.
    reflexivity.
  - unfold get_next_key. rewrite Hk. cbv zeta. rewrite Hk. reflexivity.
Qed.

Lemma get_next_key_ok (km : KeyManager) :
  _keys km ≠ [] →
  ∃ k km', get_next_key km = Ok (k, km') ∧ _keys km' = _keys km.
Proof.
  intros Hne. destruct km as [keys q g]; simpl in *.
  destruct q as [|k q].
  - rewrite get_next_key_refill by done.
    pose proof (initialize_queue_perm (mkKeyManager keys [] g)) as Hp.
    pose proof (initialize_queue_keys (mkKeyManager keys [] g)) as Hk.
    destruct (_initialize_queue (mkKeyManager keys [] g)) as [keys' q' g']; simpl in *.
    subst keys'. destruct q' as [|k q'].
    + by apply Permutation_nil_l in Hp.
    + eexists _, _. split; [apply get_next_key_pop | done].
  - eexists _, _. split; [apply get_next_key_pop | done].
Qed.

(** Drawing as many keys as the queue holds yields the queue, in order. *)
Lemma draw_keys_queue (keys q : list string) (g : Random) :
  draw_keys (length q) (mkKeyManager keys q g) = Ok (q, mkKeyManager keys [] g).
Proof.
  induction q as [|k q IH]; cbn [draw_keys length]; [done|].
  rewrite get_next_key_pop, IH. done.
Qed.

Lemma draw_keys_refill (n : nat) (km : KeyManager) :
  _key_queue km = [] → draw_keys (S n) km = draw_keys (S n) (_initialize_queue km).
Proof. intros Hq. cbn [draw_keys]. by rewrite get_next_key_refill. Qed.

(** A full round from a fresh cycle: the keys drawn are the queue of the
    cycle, and the queue is left empty. *)
Lemma draw_keys_cycle (km : KeyManager) :
  _keys km ≠ [] →
  _key_queue km = [] ∨ _key_queue km ≡ₚ _keys km →
  ∃ ks g,
    draw_keys (length (_keys km)) km = Ok (ks, mkKeyManager (_keys km) [] g)
    ∧ ks ≡ₚ _keys km
    ∧ (_key_queue km = [] → ks = (shuffle (_keys km) (rng km)).1
                             ∧ g = (shuffle (_keys km) (rng km)).2)
    ∧ (_key_queue km ≠ [] → ks = _key_queue km ∧ g = rng km).
Proof.
  intros Hne [Hq | Hp].
  - assert (∃ n, length (_keys km) = S n) as [n Hn].
    { destruct (_keys km); [done | eauto]. }
    rewrite Hn, draw_keys_refill by done. rewrite <- Hn.
    pose proof (initialize_queue_perm km) as Hp.
    pose proof (initialize_queue_keys km) as Hk.
    pose proof (initialize_queue_queue km) as Hqq.
    pose proof (initialize_queue_rng km) as Hg.
    destruct (_initialize_queue km) as [keys' q' g'].
    cbn [_keys _key_queue rng] in Hp, Hk, Hqq, Hg. subst keys'.
    exists q', g'. split; [|split; [done|split; [done|congruence]]].
    rewrite <- (Permutation_length Hp). apply draw_keys_queue.
  - destruct km as [keys q g]. cbn [_keys _key_queue rng] in *.
    exists q, g. split; [|split; [done|split]].
    + rewrite <- (Permutation_length Hp). apply draw_keys_queue.
    + intros ->. by apply Permutation_nil_l in Hp.
    + done.
Qed.

(** ** The retry loop *)

Lemma initialize_client_from_eq nc retries last_error a tr :
  initialize_client_from nc retries last_error a tr =
  if decide (retries < MAX_RETRIES) then
    match try_new_client nc retries a with
    | (Ok c, a', tr') => (Ok tt, with_client (Some c) a', tr ++ tr')
    | (Raise e, a', tr') =>
        initialize_client_from nc (retries + 1) (Some e) a'
          (tr ++ tr' ++ if Nat.ltb (retries + 1) MAX_RETRIES
                        then [ESleep RETRY_DELAY] else [])
    end
  else (Raise (raise_last last_error), a, tr).
Proof.
  simp initialize_client_from.
  destruct (lt_dec retries MAX_RETRIES) as [Hlt|Hge]; simpl.
  - rewrite decide_True by done.
    by destruct (try_new_client nc retries a) as [[[c|e] a'] tr'].
  - by rewrite decide_False.
Qed.

Lemma try_new_client_draw nc retries a k km' :
  get_next_key (key_manager a) = Ok (k, km') →
  try_new_client nc retries a
  = (nc retries k, with_key_manager km' a, [EKey k; ENewClient k]).
Proof. intros H. unfold try_new_client. by rewrite H. Qed.

(** A first attempt that succeeds: one key drawn, the client stored. *)
Lemma initialize_client_first_try nc a k km' c :
  get_next_key (key_manager a) = Ok (k, km') →
  nc 0 k = Ok c →
  initialize_client nc a
  = (Ok tt, with_client (Some c) (with_key_manager km' a), [EKey k; ENewClient k]).
Proof.
  intros Hk Hc. unfold initialize_client.
  rewrite initialize_client_from_eq. rewrite decide_True by (unfold MAX_RETRIES; lia).
  rewrite (try_new_client_draw _ _ _ _ _ Hk), Hc. reflexivity.
Qed.

(** * The claims *)

(** C9. Credential loading: when the configuration value is absent, empty,
    or has no non-empty entry once split on commas and trimmed, loading
    raises [ValueError], and so do the constructors of [KeyManager] and
    [AudioLoop] (nothing catches it and nothing retries: no orchestrator
    exists).  Otherwise the loaded set is not empty and each of its
    credentials is a non-empty string. *)
Theorem load_api_keys_fail_fast (env : option string) (g : Random) :
  let keys_str := default "" env in
  let no_entry :=
    env = None ∨ keys_str = ""
    ∨ Forall (λ k, PyStr.strip k = "") (PyStr.split keys_str ",") in
  (no_entry →
     ∃ msg, _load_api_keys env = Raise (ValueError msg)
            ∧ KeyManager_init env g = Raise (ValueError msg)
            ∧ AudioLoop_init env g = Raise (ValueError msg))
  ∧ (¬ no_entry →
     ∃ keys a, _load_api_keys env = Ok keys
               ∧ keys ≠ [] ∧ Forall (λ k, k ≠ "") keys
               ∧ AudioLoop_init env g = Ok a
               ∧ _keys (key_manager a) = keys).
Proof.
  intros keys_str no_entry.
  assert (Hinit : ∀ msg, _load_api_keys env = Raise (ValueError msg) →
            KeyManager_init env g = Raise (ValueError msg)
            ∧ AudioLoop_init env g = Raise (ValueError msg)).
  { intros msg H. unfold AudioLoop_init, KeyManager_init. by rewrite H. }
  set (kept := List.filter (λ k, PyStr.truthy (PyStr.strip k)) (PyStr.split keys_str ",")).
  assert (Hload : _load_api_keys env =
            if negb (PyStr.truthy keys_str)
            then Raise (ValueError "API keys configuration error")
            else match map PyStr.strip kept with
                 | [] => Raise (ValueError "No valid API keys")
                 | _ :: _ => Ok (map PyStr.strip kept)
                 end) by reflexivity.
  assert (Hblank : Forall (λ k, PyStr.strip k = "") (PyStr.split keys_str ",")
                   ↔ kept = []).
  { unfold kept. rewrite filter_nil_Forall. apply Forall_iff. intros k.
    symmetry. apply PyStrFacts.truthy_false. }
  split.
  - intros Hno.
    destruct (PyStr.truthy keys_str) eqn:Htr.
    + assert (kept = []) as Hk.
      { destruct Hno as [-> | [Hs | Hf]].
        * done.
        * apply PyStrFacts.truthy_true in Htr. done.
        * by apply Hblank. }
      exists "No valid API keys". rewrite Hk in Hload. simpl in Hload. eauto.
    + exists "API keys configuration error". simpl in Hload. eauto.
  - intros Hyes.
    destruct (PyStr.truthy keys_str) eqn:Htr.
    + simpl in Hload.
      destruct kept as [|k0 kept0] eqn:Hk.
      { exfalso. apply Hyes. right. right. by apply Hblank. }
      assert (Hne : Forall (λ k, k ≠ "") (map PyStr.strip (k0 :: kept0))).
      { rewrite <- Hk. apply Forall_map. unfold kept.
        eapply Forall_impl; [apply filter_Forall_true|].
        intros k Hkk. simpl. by apply PyStrFacts.truthy_true. }
      exists (map PyStr.strip (k0 :: kept0)).
      unfold AudioLoop_init, KeyManager_init. rewrite Hload.
      eexists. split; [done|]. split; [done|]. split; [done|]. split; [done|].
      cbn [key_manager attributes_after_reset]. apply initialize_queue_keys.
    + exfalso. apply Hyes. right. left. by apply PyStrFacts.truthy_false.
Qed.

Lemma load_api_keys_witness :
  ∃ keys a, _load_api_keys (Some " k1, ,k2 ,,") = Ok keys
            ∧ keys ≠ [] ∧ Forall (λ k, k ≠ "") keys
            ∧ AudioLoop_init (Some " k1, ,k2 ,,") (mkRandom (λ i, i) 0) = Ok a
            ∧ _keys (key_manager a) = keys.
Proof.
  apply (load_api_keys_fail_fast (Some " k1, ,k2 ,,") (mkRandom (λ i, i) 0)).
  intros [H | [H | H]]; [discriminate H | discriminate H |].
  vm_compute in H. inversion H as [|? ? Hk _]. discriminate Hk.
Defined.

(** C4. Rotation: from a fresh cycle (the queue just refilled, or empty and
    so refilled by the first call), [N] calls of [get_next_key] on a set of
    [N] pairwise distinct credentials return each credential exactly once;
    the queue is then empty, and call [N+1] starts a new cycle: a new
    shuffle of the whole set, made from what the generator draws next, whose
    head it returns. *)
Theorem rotation_full_cycle (km : KeyManager) :
  let N := length (_keys km) in
  _keys km ≠ [] →
  NoDup (_keys km) →
  _key_queue km = [] ∨ _key_queue km ≡ₚ _keys km →
  ∃ ks km',
    draw_keys N km = Ok (ks, km')
    ∧ length ks = N ∧ NoDup ks ∧ ks ≡ₚ _keys km
    ∧ (∀ k, k ∈ _keys km → length (List.filter (String.eqb k) ks) = 1)
    ∧ _keys km' = _keys km ∧ _key_queue km' = []
    ∧ ∃ k km'' ks2 km2,
        get_next_key km' = Ok (k, km'')
        ∧ k :: _key_queue km'' = (shuffle (_keys km) (rng km')).1
        ∧ draw_keys N km' = Ok (ks2, km2)
        ∧ ks2 = (shuffle (_keys km) (rng km')).1
        ∧ head ks2 = Some k
        ∧ ks2 ≡ₚ _keys km ∧ NoDup ks2.
Proof.
  intros N Hne Hnd Hfresh.
  destruct (draw_keys_cycle km Hne Hfresh) as (ks & g & Hdraw & Hperm & _ & _).
  exists ks, (mkKeyManager (_keys km) [] g).
  assert (Hnd1 : NoDup ks) by (by rewrite Hperm).
  split; [done|]. split; [by rewrite Hperm|]. split; [done|]. split; [done|].
  split.
  { intros k Hk. rewrite <- Hperm in Hk. clear -Hk Hnd1.
    induction Hnd1 as [|x l Hx Hl IH]; [by apply elem_of_nil in Hk|].
    cbn [List.filter]. destruct (String.eqb_spec k x) as [->|Hkx].
    - cbn [length]. f_equal.
      assert (List.filter (String.eqb x) l = []) as ->; [|done].
      apply filter_nil_Forall, Forall_forall. intros y Hy.
      apply String.eqb_neq. intros ->. done.
    - apply IH. apply elem_of_cons in Hk as [?|?]; done. }
  split; [done|]. split; [done|].
  set (km' := mkKeyManager (_keys km) [] g).
  destruct (draw_keys_cycle km') as (ks2 & g2 & Hdraw2 & Hperm2 & Hq2 & _);
    [done | by left |].
  destruct (Hq2 eq_refl) as [Hks2 _]. cbn [_keys rng km'] in *.
  assert (Hrefill : get_next_key km' = get_next_key (_initialize_queue km'))
    by (by apply get_next_key_refill).
  pose proof (initialize_queue_queue km') as Hqq.
  pose proof (initialize_queue_keys km') as Hkk.
  destruct (_initialize_queue km') as [keys3 q3 g3].
  cbn [_keys _key_queue rng km'] in Hqq, Hkk. subst keys3.
  destruct q3 as [|k q3].
  { exfalso. rewrite Hks2, <- Hqq in Hperm2.
    apply Permutation_nil_l in Hperm2. by apply Hne. }
  rewrite get_next_key_pop in Hrefill.
  exists k, (mkKeyManager (_keys km) q3 g3), ks2, (mkKeyManager (_keys km) [] g2).
  split; [done|]. split; [done|]. split; [done|]. split; [done|].
  split; [by rewrite Hks2, <- Hqq|]. split; [done|]. by rewrite Hperm2.
Qed.

Lemma rotation_full_cycle_witness :
  ∃ ks km', draw_keys 3 three_keys = Ok (ks, km')
            ∧ ks ≡ₚ ["A"; "B"; "C"] ∧ _key_queue km' = [].
Proof.
  destruct (rotation_full_cycle three_keys) as (ks & km' & H1 & _ & _ & H2 & _ & _ & H3 & _).
  - vm_compute. discriminate.
  - refine (bool_decide_unpack _ _). vm_compute. exact I.
  - right. refine (bool_decide_unpack _ _). vm_compute. exact I.
  - exists ks, km'. auto.
Defined.

Example rotation_two_cycles :
  (λ r, match r with Ok (ks, _) => ks | Raise _ => [] end) (draw_keys 6 three_keys)
  = ["A"; "C"; "B"; "A"; "B"; "C"].
Proof. vm_compute. reflexivity. Qed.

(** C2 (amended). Retry bound of the client: when every construction of
    the client fails, [initialize_client] makes exactly three attempts,
    each after a draw of its own from the rotator, sleeps
    [RETRY_DELAY = 2] between attempts (not after the last), and raises the
    error of the third attempt: never a fourth attempt.  The client
    attribute is left as it was.  (The bound is on building the client;
    opening the connection is tried again without a bound.) *)
Theorem initialize_client_retry_bound
    (new_client : nat → string → result Client) (err : nat → string → exn)
    (a : AudioLoop) :
  _keys (key_manager a) ≠ [] →
  (∀ n k, new_client n k = Raise (err n k)) →
  ∃ k1 k2 k3 km',
    draw_keys 3 (key_manager a) = Ok ([k1; k2; k3], km')
    ∧ initialize_client new_client a
      = (Raise (err 2 k3), with_key_manager km' a,
         [EKey k1; ENewClient k1; ESleep 2;
          EKey k2; ENewClient k2; ESleep 2;
          EKey k3; ENewClient k3]).
Proof.
  intros Hne Hfail.
  destruct (get_next_key_ok _ Hne) as (k1 & km1 & Hk1 & Hkeys1).
  destruct (get_next_key_ok km1) as (k2 & km2 & Hk2 & Hkeys2); [congruence|].
  destruct (get_next_key_ok km2) as (k3 & km3 & Hk3 & Hkeys3); [congruence|].
  exists k1, k2, k3, km3. split.
  { cbn [draw_keys]. by rewrite Hk1, Hk2, Hk3. }
  unfold initialize_client.
  rewrite initialize_client_from_eq, decide_True by (unfold MAX_RETRIES; lia).
  rewrite (try_new_client_draw _ _ _ _ _ Hk1), Hfail.
  rewrite initialize_client_from_eq, decide_True by (unfold MAX_RETRIES; lia).
  rewrite (try_new_client_draw _ _ (with_key_manager km1 a) k2 km2) by done.
  rewrite Hfail.
  rewrite initialize_client_from_eq, decide_True by (unfold MAX_RETRIES; lia).
  rewrite (try_new_client_draw _ _ (with_key_manager km2 (with_key_manager km1 a)) k3 km3)
    by done.
  rewrite Hfail.
  rewrite initialize_client_from_eq, decide_False by (unfold MAX_RETRIES; lia).
  reflexivity.
Qed.

Lemma initialize_client_retry_bound_witness :
  ∃ k1 k2 k3 km',
    draw_keys 3 (key_manager demo_loop) = Ok ([k1; k2; k3], km')
    ∧ initialize_client (λ n k, Raise (ConnectionError k)) demo_loop
      = (Raise (ConnectionError k3), with_key_manager km' demo_loop,
         [EKey k1; ENewClient k1; ESleep 2;
          EKey k2; ENewClient k2; ESleep 2;
          EKey k3; ENewClient k3]).
Proof.
  apply (initialize_client_retry_bound
           (λ n k, Raise (ConnectionError k)) (λ n k, ConnectionError k) demo_loop).
  - vm_compute. discriminate.
  - intros n k. reflexivity.
Defined.

(** C2, as the claim is worded (connection-opening attempts): its
    counterexample.  [live.connect] fails every time while the client is
    rebuilt at once: after four failures [run] has made four connection
    attempts and stands at the top of its loop for a fifth; nothing has
    been raised and [run] has not ended. *)
Lemma connect_attempts_exceed_three :
  let m := run_events (boot demo_loop)
             (Start client_ok
              :: failed_connects 4 (ConnectionError "refused") client_ok) in
  length (List.filter is_connect (trace m)) = 4 ∧ pc m = AtConnect.
Proof. vm_compute. split; reflexivity. Qed.

(** ** Draining *)

Lemma queue_empty_items {A} (q : Queue A) : Q.empty q = true ↔ items q = [].
Proof.
  unfold Q.empty, Q.qsize. destruct (items q); simpl; split; intros; done.
Qed.

Lemma get_nowait_maxsize {A} (q q' : Queue A) (x : A) :
  Q.get_nowait q = Ok (x, q') → maxsize q' = maxsize q.
Proof. unfold Q.get_nowait. destruct (items q); intros; by simplify_eq/=. Qed.

Lemma get_nowait_nonempty {A} (q : Queue A) (e : exn) :
  Q.get_nowait q = Raise e → Q.empty q = true.
Proof.
  unfold Q.get_nowait, Q.empty, Q.qsize. destruct (items q); intros; by simplify_eq/=.
Qed.

Lemma drain_all {A} (q : Queue A) : drain q = Ok (mkQueue (maxsize q) []).
Proof.
  funelim (drain q).
  - match goal with
    | E : Q.empty _ = true |- _ => pose proof (proj1 (queue_empty_items _) E) as Hq
    end.
    destruct q as [n l]; simpl in *. by subst.
  - match goal with
    | IH : drain _ = Ok _, G : Q.get_nowait _ = Ok _ |- _ =>
        rewrite IH, (get_nowait_maxsize _ _ _ G)
    end.
    done.
  - match goal with
    | E : Q.empty _ = false, G : Q.get_nowait _ = Raise _ |- _ =>
        pose proof (get_nowait_nonempty _ _ G); congruence
    end.
Qed.

(** C3. Interruption draining: when the sequence of a turn ends while the
    receive pipeline runs, whatever number [k] of chunks the inbound audio
    queue holds, the queue holds none after that one step; nothing else of
    the machine changes (the chunks are discarded, not played). *)
Theorem turn_complete_drains_queue (k : nat) (m : Machine) :
  in_group ReceiveAudio m = true →
  Q.qsize (audio_in_queue (self m)) = k →
  let m' := step m RecvTurnComplete in
  Q.qsize (audio_in_queue (self m')) = 0
  ∧ m' = with_self
           (with_audio_in_queue (mkQueue (maxsize (audio_in_queue (self m))) []) (self m))
           m.
Proof.
  intros Hin _ m'. subst m'. cbn [step]. rewrite Hin.
  unfold recv_turn_complete, on_turn_complete. rewrite drain_all. done.
Qed.

Lemma turn_complete_drains_queue_witness :
  Q.qsize (audio_in_queue (self demo_buffered)) = 3
  ∧ Q.qsize (audio_in_queue (self (step demo_buffered RecvTurnComplete))) = 0.
Proof.
  split; [reflexivity|].
  apply (turn_complete_drains_queue 3 demo_buffered); reflexivity.
Defined.




(** ** What [initialize_client] may change *)

Lemma same_but_client_refl a : same_but_client a a.
Proof. unfold same_but_client. auto 15. Qed.

Lemma same_but_client_trans a b c :
  same_but_client a b → same_but_client b c → same_but_client a c.
Proof. unfold same_but_client. intuition congruence. Qed.

Lemma get_next_key_keys km k km' :
  get_next_key km = Ok (k, km') → _keys km' = _keys km.
Proof.
  unfold get_next_key. cbv zeta.
  destruct (_key_queue km) as [|k0 q0] eqn:Hq.
  - pose proof (initialize_queue_keys km) as Hk.
    destruct (_key_queue (_initialize_queue km)); [discriminate|].
    intros H. injection H as _ <-. exact Hk.
  - rewrite Hq. intros H. injection H as _ <-. reflexivity.
Qed.

Lemma try_new_client_frame nc retries a :
  same_but_client a (try_new_client nc retries a).1.2.
Proof.
  unfold try_new_client.
  destruct (get_next_key (key_manager a)) as [[k km]|e] eqn:Hk; cbn.
  - unfold same_but_client. cbn. split_and!; try done.
    by apply get_next_key_keys in Hk.
  - apply same_but_client_refl.
Qed.

Lemma initialize_client_from_frame nc n :
  ∀ retries last_error a tr,
    MAX_RETRIES - retries = n →
    same_but_client a (initialize_client_from nc retries last_error a tr).1.2.
Proof.
  induction n as [|n IH]; intros retries last_error a tr Hn;
    rewrite initialize_client_from_eq.
  - rewrite decide_False by lia. apply same_but_client_refl.
  - rewrite decide_True by lia.
    pose proof (try_new_client_frame nc retries a) as Hf.
    destruct (try_new_client nc retries a) as [[[c|e] a'] tr']; cbn in Hf |- *.
    + eapply same_but_client_trans; [exact Hf|].
      unfold same_but_client. cbn. auto 15.
    + eapply same_but_client_trans; [exact Hf|]. apply IH. lia.
Qed.

Lemma initialize_client_frame nc a :
  same_but_client a (initialize_client nc a).1.2.
Proof. by eapply initialize_client_from_frame. Qed.

(** ** The task group *)

Lemma cancelled_not_running (tg : TaskGroup) (p : pipeline) :
  task (map_tasks on_cancel tg) p ≠ Running.
Proof.
  destruct tg as [[] [] [] [] []], p; cbn; discriminate.
Qed.

Lemma task_set_task_eq p s tg : task (set_task p s tg) p = s.
Proof. by destruct p. Qed.

Lemma task_set_task_ne p q s tg : p ≠ q → task (set_task p s tg) q = task tg q.
Proof. by destruct p, q. Qed.

Lemma failures_set_failed p e tg : failures (set_task p (Failed e) tg) ≠ [].
Proof.
  unfold failures, all_pipelines.
  destruct p, tg as [s1 s2 s3 s4 s5]; cbn;
    destruct s1, s2, s3, s4, s5; cbn; discriminate.
Qed.

Lemma settle_cases (m : Machine) :
  (failures (tasks m) ≠ [] ∧ settle m = with_pc InHandler (leave_group m))
  ∨ (failures (tasks m) = [] ∧ (∀ p, task (tasks m) p ≠ Running)
     ∧ settle m = with_pc AtConnect (leave_group m))
  ∨ (failures (tasks m) = [] ∧ (∃ p, task (tasks m) p = Running) ∧ settle m = m).
Proof.
  unfold settle. destruct (failures (tasks m)) as [|e es] eqn:Hf.
  - destruct (forallb _ _) eqn:Hall.
    + right. left. split; [done|]. split; [|done].
      intros p Hp. rewrite forallb_forall in Hall.
      specialize (Hall p). rewrite Hp in Hall. cbn in Hall.
      assert (In p all_pipelines) as Hin by (destruct p; cbn; tauto).
      specialize (Hall Hin). discriminate.
    + right. right. split; [done|]. split; [|done].
      destruct (tasks m) as [[] [] [] [] []]; cbn in Hall; try discriminate;
        first [ by exists SendText | by exists SendRealtime | by exists ListenAudio
              | by exists ReceiveAudio | by exists PlayAudio ].
  - left. done.
Qed.

(** ** Bounded queues *)

Lemma put_full {A} (x : A) (q : Queue A) :
  0 < maxsize q → maxsize q ≤ Q.qsize q → Q.put x q = None.
Proof.
  intros Hpos Hfull. unfold Q.put, Q.full.
  destruct (Nat.leb_spec (maxsize q) 0); [lia|].
  destruct (Nat.leb_spec (maxsize q) (Q.qsize q)); [done | lia].
Qed.

Lemma put_room {A} (x : A) (q : Queue A) :
  maxsize q = 0 ∨ Q.qsize q < maxsize q →
  Q.put x q = Some (mkQueue (maxsize q) (items q ++ [x])).
Proof.
  intros Hroom. unfold Q.put, Q.full.
  destruct (Nat.leb_spec (maxsize q) 0); [done|].
  destruct (Nat.leb_spec (maxsize q) (Q.qsize q)); [lia | done].
Qed.

(** ** An invariant of the machine *)

Lemma group_inv_boot (km : KeyManager) : group_inv (boot (attributes_after_reset km)).
Proof.
  unfold group_inv. cbn. split_and!; try done; try lia.
  intros _ p. destruct p; discriminate.
Qed.

Lemma group_inv_finish (m : Machine) :
  (∀ p, task (tasks m) p ≠ Running) → group_inv (finish m).
Proof.
  intros Hno. unfold group_inv, finish. cbn. split_and!; try done; lia.
Qed.

Lemma group_inv_leave (m : Machine) (c : run_pc) :
  group_inv m → c ≠ InGroup → group_inv (with_pc c (leave_group m)).
Proof.
  intros (Hmax & Hsz & _ & _) Hc. unfold group_inv, leave_group, close_session.
  destruct (session (self m)); cbn; split_and!; try done;
    intros _; apply cancelled_not_running.
Qed.

Lemma group_inv_settle (m : Machine) :
  group_inv m → pc m = InGroup → group_inv (settle m).
Proof.
  intros Hinv Hpc.
  destruct (settle_cases m) as [[_ ->] | [(_ & _ & ->) | (_ & _ & ->)]];
    [by apply group_inv_leave | by apply group_inv_leave | done].
Qed.

(** Changes of [self] that leave the outbound queue and the session. *)
Lemma group_inv_with_self (m : Machine) (a : AudioLoop) :
  group_inv m →
  out_queue a = out_queue (self m) →
  session a = session (self m) →
  group_inv (with_self a m).
Proof.
  intros (Hmax & Hsz & Hin & Hout) Hq Hs. unfold group_inv, session_open. cbn.
  rewrite Hq, Hs. done.
Qed.

Lemma group_inv_with_tasks (m : Machine) (tg : TaskGroup) :
  group_inv m → pc m = InGroup → group_inv (with_tasks tg m).
Proof.
  intros (Hmax & Hsz & Hin & Hout) Hpc. unfold group_inv. cbn.
  split_and!; try done.
Qed.

Lemma group_inv_emit (m : Machine) (es : list effect) :
  group_inv m → group_inv (emit es m).
Proof. done. Qed.

Lemma group_inv_with_capture (m : Machine) (c : capture_state) :
  group_inv m → group_inv (with_capture c m).
Proof. done. Qed.

Lemma group_inv_end_task (m : Machine) (p : pipeline) (s : task_state) :
  group_inv m → pc m = InGroup → group_inv (end_task p s m).
Proof.
  intros Hinv Hpc. apply group_inv_settle; [|done].
  by apply group_inv_with_tasks.
Qed.

Lemma in_group_pc p m : in_group p m = true → pc m = InGroup.
Proof.
  unfold in_group. intros [H _]%andb_prop. by apply bool_decide_eq_true in H.
Qed.

Lemma in_group_running p m : in_group p m = true → task (tasks m) p = Running.
Proof.
  unfold in_group. intros [_ H]%andb_prop. by destruct (task (tasks m) p).
Qed.

(** The invariant reads the outbound queue, the session, the tasks and
    the program point only. *)
Lemma group_inv_ext (m m' : Machine) :
  group_inv m →
  out_queue (self m') = out_queue (self m) →
  session (self m') = session (self m) →
  tasks m' = tasks m →
  pc m' = pc m ∨ (pc m ≠ InGroup ∧ pc m' ≠ InGroup) →
  group_inv m'.
Proof.
  intros (Hmax & Hsz & Hin & Hout) Hq Hs Ht Hpc.
  unfold group_inv, session_open. rewrite Hq, Hs, Ht.
  split_and!; try done.
  - intros Hg. apply Hin. destruct Hpc as [<- | [_ ?]]; done.
  - intros Hg. apply Hout. destruct Hpc as [<- | [? _]]; done.
Qed.

Lemma group_inv_after_init nc (m : Machine) :
  group_inv m → pc m ≠ InGroup →
  ∀ r a tr, initialize_client nc (self m) = (r, a, tr) →
    out_queue a = out_queue (self m) ∧ session a = session (self m)
    ∧ group_inv (finish (emit tr (with_self a m))).
Proof.
  intros Hinv Hpc r a tr Hi.
  pose proof (initialize_client_frame nc (self m)) as Hf. rewrite Hi in Hf.
  cbn in Hf. destruct Hf as (_ & Hq & _ & _ & _ & _ & _ & Hs & _).
  split_and!; try done.
  apply group_inv_finish. cbn. by apply Hinv.
Qed.

Lemma group_inv_step (m : Machine) (ev : event) : group_inv m → group_inv (step m ev).
Proof.
  intros Hinv. destruct ev; cbn [step].
  - (* Start *)
    case_bool_decide as Hpc; [|done]. unfold run_start.
    destruct (initialize_client new_client (self m)) as [[r a] tr] eqn:Hi.
    destruct (group_inv_after_init _ m Hinv ltac:(congruence) _ _ _ Hi)
      as (Hq & Hs & Hfin).
    destruct r; [|done].
    apply (group_inv_ext m); try done. right. cbn. split; congruence.
  - (* Connect *)
    case_bool_decide as Hpc; [|done]. unfold run_connect.
    destruct (client (self m)) as [c|].
    + destruct outcome.
      * apply (group_inv_ext m); try done. right. cbn. split; congruence.
      * destruct Hinv as (Hmax & Hsz & _ & _).
        unfold group_inv, session_open. cbn. split_and!; try done. eauto.
    + apply (group_inv_ext m); try done. right. cbn. split; congruence.
  - (* Recover *)
    case_bool_decide as Hpc; [|done]. unfold run_recover.
    destruct (initialize_client new_client (self m)) as [[r a] tr] eqn:Hi.
    destruct (group_inv_after_init _ m Hinv ltac:(congruence) _ _ _ Hi)
      as (Hq & Hs & Hfin).
    destruct r; [|done].
    apply (group_inv_ext m); try done. right. cbn. split; congruence.
  - (* StepSendText *)
    destruct (in_group SendText m) eqn:Hin; [|done].
    apply in_group_pc in Hin. unfold step_send_text.
    destruct (Q.get (external_input_queue (self m))) as [[text q]|]; [|done].
    destruct (send_text_body _ text) as [ctl sent].
    destruct ctl.
    + apply group_inv_end_task; [|done]. by apply (group_inv_ext m); auto.
    + by apply (group_inv_ext m); auto.
    + apply group_inv_end_task; [|done]. by apply (group_inv_ext m); auto.
  - (* StepSendRealtime *)
    destruct (in_group SendRealtime m) eqn:Hin; [|done].
    unfold step_send_realtime, Q.get.
    destruct (items (out_queue (self m))) as [|msg rest] eqn:Hq; [done|].
    destruct Hinv as (Hmax & Hsz & Hi & Ho). unfold group_inv, Q.qsize in *. cbn.
    rewrite Hq in Hsz. cbn in Hsz. split_and!; try done. lia.
  - (* StepListen *)
    destruct (in_group ListenAudio m) eqn:Hin; [|done].
    assert (Hput : ∀ c, group_inv (capture_put c m)).
    { intros c. unfold capture_put.
      pose proof Hinv as (Hmax & Hsz & Hi & Ho).
      destruct (le_lt_dec 5 (Q.qsize (out_queue (self m)))) as [Hfull|Hroom].
      - rewrite put_full by lia. by apply (group_inv_ext m); auto.
      - rewrite put_room by lia.
        unfold group_inv, Q.qsize in *. cbn. rewrite length_app. cbn.
        split_and!; try done. lia. }
    unfold step_listen. destruct (capture m); [|done|done].
    by apply (group_inv_ext m); auto.
  - (* RecvResponse *)
    destruct (in_group ReceiveAudio m) eqn:Hin; [|done].
    apply in_group_pc in Hin. unfold recv_response.
    destruct (on_response r (self m)) as [[a es]|e] eqn:Hr.
    + apply (group_inv_ext m); auto; cbn;
        unfold on_response in Hr; repeat case_match; by simplify_eq/=.
    + by apply group_inv_end_task.
  - (* RecvTurnComplete *)
    destruct (in_group ReceiveAudio m) eqn:Hin; [|done].
    unfold recv_turn_complete, on_turn_complete. rewrite drain_all.
    by apply (group_inv_ext m); auto.
  - (* StepPlay *)
    destruct (in_group PlayAudio m) eqn:Hin; [|done].
    unfold step_play. destruct (Q.get _) as [[b q]|]; [|done].
    by apply (group_inv_ext m); auto.
  - (* Raises *)
    destruct (in_group p m) eqn:Hin; [|done].
    apply in_group_pc in Hin. by apply group_inv_end_task.
  - (* StepConfig *)
    destruct (_config_task (self m)) as [[]|]; try done.
    unfold configure_session_step.
    destruct (Q.get _) as [[u q]|]; [|done].
    by apply (group_inv_ext m); auto.
  - (* Cancel *)
    unfold run_cancel. destruct (pc m) eqn:Hpc; try done.
    + apply group_inv_finish. apply Hinv. congruence.
    + destruct (is_running_task _).
      * by apply group_inv_end_task.
      * apply group_inv_finish. cbn. apply cancelled_not_running.
    + apply group_inv_finish. apply Hinv. congruence.
  - (* UiSendText *)
    destruct (Q.put _ _); [|done]. by apply (group_inv_ext m); auto.
  - (* UiUpdateConfig *)
    destruct (Q.put _ _); [|done]. by apply (group_inv_ext m); auto.
Qed.

Lemma group_inv_run (m : Machine) (evs : list event) :
  group_inv m → group_inv (run_events m evs).
Proof.
  revert m. induction evs as [|ev evs IH]; intros m Hinv; [done|].
  cbn. apply IH. by apply group_inv_step.
Qed.

(** ** How a step may change the outbound queue *)

Lemma out_queue_close (a : AudioLoop) : out_queue (close_session a) = out_queue a.
Proof. unfold close_session. by destruct (session a). Qed.

Lemma out_queue_settle (m : Machine) : out_queue (self (settle m)) = out_queue (self m).
Proof.
  destruct (settle_cases m) as [[_ ->] | [(_ & _ & ->) | (_ & _ & ->)]];
    cbn; auto using out_queue_close.
Qed.

Lemma out_queue_change_step (m : Machine) (ev : event) : out_queue_change m (step m ev).
Proof.
  unfold out_queue_change.
  destruct ev; cbn [step];
    repeat match goal with
      | |- context [bool_decide ?P] => destruct (bool_decide P); [|by left]
      | |- context [in_group ?p m] => destruct (in_group p m); [|by left]
      end.
  - unfold run_start.
    pose proof (initialize_client_frame new_client (self m)) as Hf.
    destruct (initialize_client _ _) as [[[] a] tr]; cbn in Hf |- *; [left | right; auto].
    apply Hf.
  - unfold run_connect. left. by destruct (client (self m)), outcome.
  - unfold run_recover.
    pose proof (initialize_client_frame new_client (self m)) as Hf.
    destruct (initialize_client _ _) as [[[] a] tr]; cbn in Hf |- *; [left | right; auto].
    apply Hf.
  - left. unfold step_send_text.
    destruct (Q.get _) as [[text q]|]; [|done].
    destruct (send_text_body _ _) as [[] sent]; unfold end_task;
      rewrite ?out_queue_settle; done.
  - unfold step_send_realtime.
    destruct (Q.get (out_queue (self m))) as [[msg q]|] eqn:Hg; [|by left].
    right. right. left. exists msg. done.
  - assert (Hput : ∀ c, out_queue_change m (capture_put c m)).
    { intros c. unfold out_queue_change, capture_put.
      destruct (Q.put c (out_queue (self m))) as [q|] eqn:Hp; [|by left].
      right. left. exists c. split; [done|].
      unfold Q.put in Hp. destruct (Q.full _); by simplify_eq/=. }
    unfold step_listen. destruct (capture m); [by left | apply Hput | apply Hput].
  - left. unfold recv_response.
    destruct (on_response r (self m)) as [[a es]|e] eqn:Hr.
    + unfold on_response in Hr. repeat case_match; by simplify_eq/=.
    + unfold end_task. by rewrite out_queue_settle.
  - left. unfold recv_turn_complete, on_turn_complete. by rewrite drain_all.
  - left. unfold step_play. by destruct (Q.get _) as [[b q]|].
  - left. unfold end_task. by rewrite out_queue_settle.
  - left. destruct (_config_task (self m)) as [[]|]; try done.
    unfold configure_session_step. by destruct (Q.get _) as [[u q]|].
  - unfold run_cancel. destruct (pc m); auto.
    destruct (is_running_task _); auto.
    left. unfold end_task. by rewrite out_queue_settle.
  - left. by destruct (Q.put _ _).
  - left. by destruct (Q.put _ _).
Qed.

(** C6. Backpressure on the outbound audio queue: it is created with
    capacity 5 and under every sequence of events it keeps that capacity
    and holds at most 5 chunks.  At capacity the [put] of the capture
    pipeline suspends: the queue is untouched and the chunk stays in the
    pipeline's hand; once a slot is free the pipeline's next step puts
    that very chunk at the tail.  No step overwrites or removes a queued
    chunk other than the head that the send pipeline takes and sends; the
    queue is replaced only by [reset_state], when [run] ends. *)
Theorem out_queue_backpressure :
  (∀ km, out_queue (attributes_after_reset km) = Q.new 5)
  ∧ (∀ km evs,
       let m := run_events (boot (attributes_after_reset km)) evs in
       maxsize (out_queue (self m)) = 5 ∧ Q.qsize (out_queue (self m)) ≤ 5)
  ∧ (∀ m c d,
       in_group ListenAudio m = true →
       maxsize (out_queue (self m)) = 5 →
       Q.qsize (out_queue (self m)) = 5 →
       capture m = CapReading ∨ capture m = CapPutting c →
       let c' := match capture m with CapPutting _ => c | _ => mkChunk d "audio/pcm" end in
       step m (StepListen d) = with_capture (CapPutting c') m)
  ∧ (∀ m c d,
       in_group ListenAudio m = true →
       maxsize (out_queue (self m)) = 5 →
       Q.qsize (out_queue (self m)) < 5 →
       capture m = CapPutting c →
       let m' := step m (StepListen d) in
       items (out_queue (self m')) = items (out_queue (self m)) ++ [c]
       ∧ capture m' = CapReading)
  ∧ (∀ m ev, out_queue_change m (step m ev)).
Proof.
  split_and!.
  - done.
  - intros km evs m.
    destruct (group_inv_run (boot (attributes_after_reset km)) evs
                (group_inv_boot km)) as (Hmax & Hsz & _).
    done.
  - intros m c d Hin Hmax Hsz Hcap c'. subst c'. cbn [step]. rewrite Hin.
    unfold step_listen.
    destruct Hcap as [-> | ->]; unfold capture_put; by rewrite put_full by lia.
  - intros m c d Hin Hmax Hsz Hcap m'. subst m'. cbn [step]. rewrite Hin.
    unfold step_listen. rewrite Hcap. unfold capture_put.
    rewrite put_room by lia. done.
  - apply out_queue_change_step.
Qed.

Lemma out_queue_backpressure_witness :
  Q.qsize (out_queue (self demo_full)) = 5
  ∧ step demo_full (StepListen [Byte.x07]) = demo_full
  ∧ items (out_queue (self (run_events demo_full [StepSendRealtime; StepListen [Byte.x07]])))
    = map (λ b, mkChunk [b] "audio/pcm")
          [Byte.x02; Byte.x03; Byte.x04; Byte.x05; Byte.x06].
Proof.
  destruct out_queue_backpressure as (_ & _ & Hfull & Hroom & _).
  split; [reflexivity|]. split.
  - apply (Hfull demo_full (mkChunk [Byte.x06] "audio/pcm") [Byte.x07]);
      first [ reflexivity | by right ].
  - apply (Hroom (step demo_full StepSendRealtime)
             (mkChunk [Byte.x06] "audio/pcm") [Byte.x07]);
      first [ reflexivity | vm_compute; lia ].
Defined.

(** ** Failure of a pipeline *)

Lemma on_cancel_failed p e : on_cancel p (Failed e) = Failed e.
Proof. reflexivity. Qed.


(** A failed task takes the group to the handler of the loop. *)
Lemma end_task_failed (m : Machine) (p : pipeline) (e : exn) :
  end_task p (Failed e) m
  = with_pc InHandler (leave_group (with_tasks (set_task p (Failed e) (tasks m)) m)).
Proof.
  unfold end_task.
  destruct (settle_cases (with_tasks (set_task p (Failed e) (tasks m)) m))
    as [[_ ->] | [(Hf & _) | (Hf & _)]]; [done | |];
    cbn in Hf; by apply failures_set_failed in Hf.
Qed.

Lemma failures_all_running_but (tg : TaskGroup) (s : task_state) :
  (∀ p, p ≠ SendText → task tg p = Running) →
  is_failed s = false →
  failures (set_task SendText s tg) = [].
Proof.
  intros Hrun Hs.
  pose proof (Hrun SendRealtime ltac:(done)) as H1.
  pose proof (Hrun ListenAudio ltac:(done)) as H2.
  pose proof (Hrun ReceiveAudio ltac:(done)) as H3.
  pose proof (Hrun PlayAudio ltac:(done)) as H4.
  destruct tg as [s1 s2 s3 s4 s5]. cbn in *. subst.
  unfold failures, all_pipelines. cbn. by destruct s.
Qed.

(** [send_text] returns while the other four run: the exit of the group
    keeps waiting. *)
Lemma end_task_send_text_waits (m : Machine) (s : task_state) :
  (∀ p, p ≠ SendText → task (tasks m) p = Running) →
  is_failed s = false →
  end_task SendText s m = with_tasks (set_task SendText s (tasks m)) m.
Proof.
  intros Hrun Hs. unfold end_task.
  destruct (settle_cases (with_tasks (set_task SendText s (tasks m)) m))
    as [[Hf _] | [(_ & Hno & _) | (_ & _ & ->)]]; [| |done].
  - exfalso. apply Hf. cbn. by apply failures_all_running_but.
  - exfalso. apply (Hno SendRealtime).
    exact (Hrun SendRealtime ltac:(done)).
Qed.





(** C1 (what the code does). When [send_text] takes a string whose
    lowercase form is ["q"] while the other four pipelines run, its task
    returns and nothing else happens: [run] stays at the exit of the group,
    the other four tasks keep running, the session is not closed, nothing
    is sent and no reconnection starts. *)
Theorem quit_token_leaves_group_running (m : Machine) (o : option exn)
    (text : string) (q : Queue string) :
  in_group SendText m = true →
  (∀ p, p ≠ SendText → task (tasks m) p = Running) →
  Q.get (external_input_queue (self m)) = Some (text, q) →
  PyStr.lower text = "q" →
  let m' := step m (StepSendText o) in
  pc m' = InGroup
  ∧ task (tasks m') SendText = Done
  ∧ (∀ p, p ≠ SendText → task (tasks m') p = Running)
  ∧ session (self m') = session (self m)
  ∧ trace m' = trace m
  ∧ ∀ p, p ≠ SendText → in_group p m' = true.
Proof.
  intros Hin Hrun Hget Hq m'. subst m'. cbn [step]. rewrite Hin.
  unfold step_send_text. rewrite Hget.
  unfold send_text_body. rewrite Hq. cbn [String.eqb Ascii.eqb Bool.eqb map].
  rewrite end_task_send_text_waits by done.
  pose proof (in_group_pc _ _ Hin) as Hpc.
  assert (Hrun' : ∀ p, p ≠ SendText →
            task (set_task SendText Done (tasks m)) p = Running).
  { intros p Hp. rewrite task_set_task_ne by done. by apply Hrun. }
  split_and!.
  - exact Hpc.
  - reflexivity.
  - exact Hrun'.
  - reflexivity.
  - apply app_nil_r.
  - intros p Hp. unfold in_group.
    change (bool_decide (pc m = InGroup)
            && is_running_task (task (set_task SendText Done (tasks m)) p) = true).
    by rewrite Hpc, (Hrun' p Hp).
Qed.

Lemma quit_token_witness :
  let m' := step demo_quit (StepSendText None) in
  pc m' = InGroup
  ∧ task (tasks m') SendText = Done
  ∧ task (tasks m') PlayAudio = Running
  ∧ session (self m') = session (self demo_quit)
  ∧ trace m' = trace demo_quit.
Proof.
  destruct (quit_token_leaves_group_running demo_quit None "q" (mkQueue 0 []))
    as (H1 & H2 & H3 & H4 & H5 & _); try reflexivity.
  - intros p Hp. destruct p; first [ reflexivity | by destruct Hp ].
  - split_and!; [exact H1 | exact H2 | by apply H3 | exact H4 | exact H5].
Defined.

(** ** The parameters of the established connection *)

Lemma established_close (a : AudioLoop) : established (close_session a) = established a.
Proof.
  unfold established, close_session.
  destruct (session a) as [s|] eqn:Hs; cbn; by rewrite ?Hs.
Qed.

Lemma established_settle (m : Machine) :
  established (self (settle m)) = established (self m).
Proof.
  destruct (settle_cases m) as [[_ ->] | [(_ & _ & ->) | (_ & _ & ->)]];
    cbn; auto using established_close.
Qed.

Lemma established_after_init nc (a : AudioLoop) :
  established (initialize_client nc a).1.2 = established a.
Proof.
  pose proof (initialize_client_frame nc a) as (_ & _ & _ & _ & _ & _ & _ & Hs & _).
  unfold established. by rewrite Hs.
Qed.

(** Only a connection attempt may give the session other parameters. *)
Lemma established_step (m : Machine) (ev : event) :
  (∀ o, ev ≠ Connect o) →
  established (self (step m ev)) = established (self m)
  ∨ session (self (step m ev)) = None.
Proof.
  intros Hev.
  destruct ev; cbn [step];
    repeat match goal with
      | |- context [bool_decide ?P] => destruct (bool_decide P); [|by left]
      | |- context [in_group ?p m] => destruct (in_group p m); [|by left]
      end.
  - unfold run_start.
    pose proof (established_after_init new_client (self m)) as Hf.
    destruct (initialize_client _ _) as [[[] a] tr]; cbn in Hf |- *; auto.
  - by destruct (Hev outcome).
  - unfold run_recover.
    pose proof (established_after_init new_client (self m)) as Hf.
    destruct (initialize_client _ _) as [[[] a] tr]; cbn in Hf |- *; auto.
  - left. unfold step_send_text.
    destruct (Q.get _) as [[text q]|]; [|done].
    destruct (send_text_body _ _) as [[] sent]; unfold end_task;
      rewrite ?established_settle; done.
  - left. unfold step_send_realtime. by destruct (Q.get _) as [[msg q]|].
  - left. unfold step_listen, capture_put.
    destruct (capture m); try done; by destruct (Q.put _ _).
  - left. unfold recv_response.
    destruct (on_response r (self m)) as [[a es]|e] eqn:Hr.
    + unfold on_response in Hr. repeat case_match; by simplify_eq/=.
    + unfold end_task. by rewrite established_settle.
  - left. unfold recv_turn_complete, on_turn_complete. by rewrite drain_all.
  - left. unfold step_play. by destruct (Q.get _) as [[b q]|].
  - left. unfold end_task. by rewrite established_settle.
  - left. destruct (_config_task (self m)) as [[]|]; try done.
    unfold configure_session_step. by destruct (Q.get _) as [[u q]|].
  - unfold run_cancel. destruct (pc m); auto.
    destruct (is_running_task _); auto.
    left. unfold end_task. by rewrite established_settle.
  - left. by destruct (Q.put _ _).
  - left. by destruct (Q.put _ _).
Qed.

(** C8. Delayed configuration: no step but a connection attempt changes
    the parameters the current session was opened with, and the
    configuration task leaves the session as it is; a connection attempt
    builds its parameters from the attributes as they are at that moment,
    so an update applied meanwhile shows in the next session: the
    response modality and the system instruction always, the voice when
    the response modality is [AUDIO]. *)
Theorem config_read_only_at_connect :
  (∀ m ev, (∀ o, ev ≠ Connect o) →
     established (self (step m ev)) = established (self m)
     ∨ session (self (step m ev)) = None)
  ∧ (∀ m, session (self (step m StepConfig)) = session (self m))
  ∧ (∀ m c, pc m = AtConnect → client (self m) = Some c →
       let m' := step m (Connect None) in
       pc m' = InGroup
       ∧ session (self m') = Some (mkSession MODEL (build_config (self m)) c false))
  ∧ (∀ u a,
       let mode := default (response_mode a) (u !! "response_mode") in
       build_config (apply_config u a)
       = mkLiveConfig [mode]
           (default (system_instruction a) (u !! "system_instruction"))
           (if String.eqb mode "AUDIO"
            then Some (default (voice a) (u !! "voice")) else None)).
Proof.
  split_and!.
  - apply established_step.
  - intros m. cbn [step]. destruct (_config_task (self m)) as [[]|]; try done.
    unfold configure_session_step. by destruct (Q.get _) as [[u q]|].
  - intros m c Hpc Hc m'. subst m'. cbn [step].
    rewrite bool_decide_true by done. unfold run_connect. by rewrite Hc.
  - done.
Qed.

Lemma config_read_only_at_connect_witness :
  voice (self demo_updated) = "Kore"
  ∧ (speech_config <$> established (self demo_updated)) = Some (Some "Puck")
  ∧ (speech_config <$> established (self (step demo_reconnect (Connect None))))
    = Some (Some "Kore").
Proof.
  destruct config_read_only_at_connect as (Hframe & _ & Hconn & _).
  split; [reflexivity|]. split.
  - destruct (Hframe (step demo_active (UiUpdateConfig {[ "voice" := "Kore" ]}))
                StepConfig) as [H | H]; [done | | discriminate H].
    change (established (self demo_updated) =
            established (self (step demo_active (UiUpdateConfig {[ "voice" := "Kore" ]}))))
      in H.
    rewrite H. reflexivity.
  - destruct (Hconn demo_reconnect (mkClient "A" "v1alpha")) as [_ H];
      [reflexivity | reflexivity |].
    unfold established. rewrite H. reflexivity.
Defined.

(** * Further properties of the code *)

(** ** Stripping *)

Module StripFacts.
Import PyStr.

Lemma rstrip_idem (s : string) : rstrip (rstrip s) = rstrip s.
Proof.
  induction s as [|c s IH]; [done|]. cbn [rstrip].
  destruct (rstrip s) as [|c' r] eqn:Hr.
  - destruct (isspace c) eqn:Hc; [done|]. cbn. by rewrite Hc.
  - cbn [rstrip]. cbn [rstrip] in IH. by rewrite IH.
Qed.

Lemma rstrip_cons_nonspace (c : ascii) (s : string) :
  isspace c = false → rstrip (String c s) = String c (rstrip s).
Proof. intros Hc. cbn [rstrip]. destruct (rstrip s); by rewrite ?Hc. Qed.

Lemma lstrip_head (s : string) :
  lstrip s = "" ∨ ∃ c t, lstrip s = String c t ∧ isspace c = false.
Proof.
  induction s as [|c s IH]; [by left|]. cbn [lstrip].
  destruct (isspace c) eqn:Hc; [done|]. right. eauto.
Qed.

Lemma strip_idem (s : string) : strip (strip s) = strip s.
Proof.
  unfold strip. destruct (lstrip_head s) as [-> | (c & t & -> & Hc)]; [done|].
  rewrite rstrip_cons_nonspace by done. cbn [lstrip]. rewrite Hc.
  rewrite rstrip_cons_nonspace by done. by rewrite rstrip_idem.
Qed.

Lemma mem_char_lstrip (c : ascii) (s : string) :
  mem_char c s = false → mem_char c (lstrip s) = false.
Proof.
  induction s as [|c' s IH]; [done|]. cbn [lstrip].
  destruct (isspace c'); [|done]. cbn. intros [_ H]%orb_false_elim. auto.
Qed.

Lemma mem_char_rstrip (c : ascii) (s : string) :
  mem_char c s = false → mem_char c (rstrip s) = false.
Proof.
  induction s as [|c' s IH]; [done|]. cbn [rstrip mem_char].
  intros [H1 H2]%orb_false_elim. specialize (IH H2).
  destruct (rstrip s) as [|c'' r].
  - destruct (isspace c'); [done|]. cbn. by rewrite H1.
  - cbn [mem_char] in *. by rewrite H1, IH.
Qed.

Lemma mem_char_strip (c : ascii) (s : string) :
  mem_char c s = false → mem_char c (strip s) = false.
Proof. intros H. by apply mem_char_rstrip, mem_char_lstrip. Qed.

Lemma split_no_sep (s : string) (sep : ascii) :
  Forall (λ w, mem_char sep w = false) (split s sep).
Proof.
  induction s as [|c s IH]; cbn [split]; [by repeat constructor|].
  destruct (Ascii.eqb_spec c sep) as [->|Hne].
  - by constructor.
  - destruct (split s sep) as [|w ws]; inversion IH; subst.
    + repeat constructor. cbn. by apply Ascii.eqb_neq in Hne as ->.
    + constructor; [|done]. cbn. apply Ascii.eqb_neq in Hne as ->. done.
Qed.

End StripFacts.

(** X1. Every credential that [_load_api_keys] returns is trimmed (it is
    its own [strip]), holds no comma and is not empty. *)
Theorem loaded_keys_are_trimmed (env : option string) (keys : list string) :
  _load_api_keys env = Ok keys →
  Forall (λ k, PyStr.strip k = k ∧ mem_char "," k = false ∧ k ≠ "") keys.
Proof.
  unfold _load_api_keys.
  destruct (negb (PyStr.truthy (default "" env))); [discriminate|].
  set (kept := List.filter _ _).
  destruct (map PyStr.strip kept) as [|k0 ks0] eqn:Hm; [discriminate|].
  intros H. injection H as <-. rewrite <- Hm. apply Forall_map.
  pose proof (filter_Forall_true (λ k, PyStr.truthy (PyStr.strip k))
                (PyStr.split (default "" env) ",")) as Ht.
  fold kept in Ht.
  assert (Hs : Forall (λ w, mem_char "," w = false) kept).
  { unfold kept. apply Forall_forall. intros w Hw.
    apply list_elem_of_In, filter_In in Hw as [Hw _].
    pose proof (StripFacts.split_no_sep (default "" env) ",") as Hall.
    rewrite Forall_forall in Hall. by apply Hall, list_elem_of_In. }
  clear Hm. induction kept as [|w kept IH]; [constructor|].
  inversion Ht; inversion Hs; subst. constructor; [|by apply IH].
  cbn. split_and!.
  - apply StripFacts.strip_idem.
  - by apply StripFacts.mem_char_strip.
  - by apply PyStrFacts.truthy_true.
Qed.

Lemma loaded_keys_are_trimmed_witness :
  Forall (λ k, PyStr.strip k = k ∧ mem_char "," k = false ∧ k ≠ "") ["k1"; "k 2"].
Proof.
  apply (loaded_keys_are_trimmed (Some "  k1 ,, k 2 , ")). reflexivity.
Defined.

(** ** The rotator over any number of draws *)

Lemma draw_keys_app (n n' : nat) (km : KeyManager) :
  draw_keys (n + n') km
  = match draw_keys n km with
    | Raise e => Raise e
    | Ok (ks, km1) =>
        match draw_keys n' km1 with
        | Raise e => Raise e
        | Ok (ks', km2) => Ok (ks ++ ks', km2)
        end
    end.
Proof.
  revert km. induction n as [|n IH]; intros km; cbn [Nat.add draw_keys].
  - by destruct (draw_keys n' km) as [[ks' km2]|e].
  - destruct (get_next_key km) as [[k km1]|e]; [|done].
    rewrite IH. destruct (draw_keys n km1) as [[ks km2]|e]; [|done].
    by destruct (draw_keys n' km2) as [[ks' km3]|e].
Qed.

Lemma get_next_key_member (km : KeyManager) (k : string) (km' : KeyManager) :
  _key_queue km ⊆ _keys km →
  get_next_key km = Ok (k, km') →
  k ∈ _keys km ∧ _keys km' = _keys km ∧ _key_queue km' ⊆ _keys km'.
Proof.
  intros Hsub Hget. pose proof (get_next_key_keys _ _ _ Hget) as Hkeys.
  unfold get_next_key in Hget. cbv zeta in Hget.
  destruct (_key_queue km) as [|k0 q0] eqn:Hq.
  - pose proof (initialize_queue_perm km) as Hp.
    pose proof (initialize_queue_keys km) as Hk.
    destruct (_key_queue (_initialize_queue km)) as [|k1 q1] eqn:Hq1; [discriminate|].
    injection Hget as <- <-. cbn [_keys _key_queue]. rewrite Hk.
    split; [|split; [done|]].
    + rewrite <- Hp. by left.
    + intros x Hx. rewrite <- Hp. by right.
  - rewrite Hq in Hget. injection Hget as <- <-. cbn [_keys _key_queue].
    split; [|split; [done|]].
    + apply Hsub. by left.
    + intros x Hx. apply Hsub. by right.
Qed.

(** X2. The rotator never runs dry and never invents a credential: on a
    key manager with a non-empty key set whose queue holds keys of the set,
    any number of calls of [get_next_key] succeeds, every key returned is
    one of the set, and the set itself is left as loaded. *)
Theorem draw_keys_never_fails (n : nat) (km : KeyManager) :
  _keys km ≠ [] →
  _key_queue km ⊆ _keys km →
  ∃ ks km',
    draw_keys n km = Ok (ks, km')
    ∧ length ks = n
    ∧ ks ⊆ _keys km
    ∧ _keys km' = _keys km
    ∧ _key_queue km' ⊆ _keys km'.
Proof.
  revert km. induction n as [|n IH]; intros km Hne Hsub.
  - exists [], km. split_and!; try done. apply list_subseteq_nil.
  - destruct (get_next_key_ok km Hne) as (k & km1 & Hget & _).
    destruct (get_next_key_member _ _ _ Hsub Hget) as (Hk & Hkeys & Hsub1).
    destruct (IH km1) as (ks & km2 & Hdraw & Hlen & Hks & Hkeys2 & Hsub2);
      [congruence | done |].
    exists (k :: ks), km2. cbn [draw_keys]. rewrite Hget, Hdraw.
    split_and!; try done.
    + cbn. by rewrite Hlen.
    + intros x [->|Hx]%elem_of_cons; [done|]. rewrite <- Hkeys. by apply Hks.
    + congruence.
Qed.

Lemma draw_keys_never_fails_witness :
  ∃ ks km', draw_keys 7 three_keys = Ok (ks, km') ∧ length ks = 7
            ∧ ks ⊆ ["A"; "B"; "C"].
Proof.
  destruct (draw_keys_never_fails 7 three_keys) as (ks & km' & H1 & H2 & H3 & _).
  - vm_compute. discriminate.
  - refine (bool_decide_unpack _ _). vm_compute. exact I.
  - exists ks, km'. auto.
Defined.

(** X3. Fair rotation: from a fresh cycle, [c] full rounds of a key set of
    size [N] (that is [c * N] calls) return every credential exactly [c]
    times as often as it stands in the set, and leave a fresh cycle. *)
Theorem rotation_rounds (c : nat) (km : KeyManager) :
  _keys km ≠ [] →
  _key_queue km = [] ∨ _key_queue km ≡ₚ _keys km →
  ∃ ks km',
    draw_keys (c * length (_keys km)) km = Ok (ks, km')
    ∧ ks ≡ₚ mjoin (replicate c (_keys km))
    ∧ (∀ k, length (List.filter (String.eqb k) ks)
            = c * length (List.filter (String.eqb k) (_keys km)))
    ∧ _keys km' = _keys km
    ∧ (_key_queue km' = [] ∨ _key_queue km' ≡ₚ _keys km').
Proof.
  revert km. induction c as [|c IH]; intros km Hne Hfresh.
  - exists [], km. cbn. split_and!; done.
  - destruct (draw_keys_cycle km Hne Hfresh) as (ks1 & g & Hdraw & Hperm & _).
    destruct (IH (mkKeyManager (_keys km) [] g)) as (ks2 & km2 & Hdraw2 & Hperm2 & Hcnt & Hk & Hq);
      [done | by left |].
    cbn [_keys] in *.
    exists (ks1 ++ ks2), km2.
    change (S c * length (_keys km)) with (length (_keys km) + c * length (_keys km)).
    rewrite draw_keys_app, Hdraw, Hdraw2.
    split_and!; try done.
    + cbn. by rewrite Hperm, Hperm2.
    + intros k. rewrite List.filter_app, length_app, Hcnt.
      assert (length (List.filter (String.eqb k) ks1)
              = length (List.filter (String.eqb k) (_keys km))) as ->; [|cbn; lia].
      clear -Hperm. induction Hperm; cbn; try done.
      * destruct (String.eqb k x); cbn; congruence.
      * destruct (String.eqb k x), (String.eqb k y); done.
      * congruence.
Qed.

Lemma rotation_rounds_witness :
  ∃ ks km', draw_keys 6 three_keys = Ok (ks, km')
            ∧ ∀ k, length (List.filter (String.eqb k) ks)
                   = 2 * length (List.filter (String.eqb k) ["A"; "B"; "C"]).
Proof.
  destruct (rotation_rounds 2 three_keys) as (ks & km' & H1 & _ & H3 & _).
  - vm_compute. discriminate.
  - right. refine (bool_decide_unpack _ _). vm_compute. exact I.
  - exists ks, km'. split; [exact H1 | exact H3].
Defined.

(** ** The retry loop when an attempt succeeds *)

Lemma draw_keys_succ (n : nat) (km : KeyManager) (ks : list string) (km' : KeyManager) :
  draw_keys (S n) km = Ok (ks, km') →
  ∃ k km1 ks1, get_next_key km = Ok (k, km1)
               ∧ draw_keys n km1 = Ok (ks1, km') ∧ ks = k :: ks1.
Proof.
  cbn [draw_keys]. destruct (get_next_key km) as [[k km1]|e]; [|discriminate].
  destruct (draw_keys n km1) as [[ks1 km2]|e] eqn:Hd; [|discriminate].
  intros H. injection H as <- <-. by exists k, km1, ks1.
Qed.

Lemma initialize_client_from_success nc (c : Client) (j : nat) :
  ∀ retries last_error a tr ks km',
    retries + j < MAX_RETRIES →
    draw_keys (S j) (key_manager a) = Ok (ks, km') →
    (∀ i k, i < j → ks !! i = Some k → ∃ e, nc (retries + i) k = Raise e) →
    (∃ k, ks !! j = Some k ∧ nc (retries + j) k = Ok c) →
    initialize_client_from nc retries last_error a tr
    = (Ok tt, with_client (Some c) (with_key_manager km' a), tr ++ attempts_trace ks).
Proof.
  induction j as [|j IH]; intros retries last_error a tr ks km' Hlt Hdraw Hfail Hok;
    apply draw_keys_succ in Hdraw as (k1 & km1 & ks1 & Hget & Hdraw & ->);
    rewrite initialize_client_from_eq, decide_True by lia;
    rewrite (try_new_client_draw _ _ _ _ _ Hget).
  - cbn [draw_keys] in Hdraw. injection Hdraw as <- <-.
    destruct Hok as (k & Hk & Hc). cbn in Hk. injection Hk as <-.
    rewrite Nat.add_0_r in Hc. by rewrite Hc.
  - destruct (Hfail 0 k1) as [e He]; [lia | done |].
    rewrite Nat.add_0_r in He. rewrite He.
    destruct (Nat.ltb_spec (retries + 1) MAX_RETRIES) as [_|?]; [|lia].
    rewrite (IH (retries + 1) (Some e) (with_key_manager km1 a) _ ks1 km').
    + f_equal. rewrite <- !app_assoc. f_equal.
      apply draw_keys_succ in Hdraw as (k2 & ? & ks2 & _ & _ & ->). reflexivity.
    + lia.
    + exact Hdraw.
    + intros i k Hi Hk. replace (retries + 1 + i) with (retries + S i) by lia.
      apply Hfail; [lia | done].
    + destruct Hok as (k & Hk & Hc). exists k. split; [done|].
      by replace (retries + 1 + j) with (retries + S j) by lia.
Qed.

(** X4. [initialize_client] stops at the first attempt that succeeds: when
    the attempts before attempt [j] (counted from 0, [j] below 3) fail and
    attempt [j] builds a client, it returns normally with that client
    stored, having drawn exactly [j+1] keys, one per attempt, and slept
    [RETRY_DELAY] between two attempts only (not after the success). *)
Theorem initialize_client_first_success
    (nc : nat → string → result Client) (a : AudioLoop) (j : nat)
    (ks : list string) (km' : KeyManager) (c : Client) :
  j < MAX_RETRIES →
  draw_keys (S j) (key_manager a) = Ok (ks, km') →
  (∀ i k, i < j → ks !! i = Some k → ∃ e, nc i k = Raise e) →
  (∃ k, ks !! j = Some k ∧ nc j k = Ok c) →
  initialize_client nc a
  = (Ok tt, with_client (Some c) (with_key_manager km' a), attempts_trace ks).
Proof.
  intros Hj Hdraw Hfail Hok. unfold initialize_client.
  by rewrite (initialize_client_from_success nc c j 0 None a [] ks km').
Qed.

Lemma initialize_client_first_success_witness :
  (initialize_client
     (λ n k, if Nat.eqb n 1 then Ok (mkClient k "v1alpha") else Raise (ConnectionError k))
     demo_loop).2
  = [EKey "B"; ENewClient "B"; ESleep 2; EKey "A"; ENewClient "A"].
Proof.
  rewrite (initialize_client_first_success
             (λ n k, if Nat.eqb n 1 then Ok (mkClient k "v1alpha")
                     else Raise (ConnectionError k))
             demo_loop 1 ["B"; "A"]
             (mkKeyManager ["A"; "B"] [] (mkRandom (λ i, i) 1))
             (mkClient "A" "v1alpha")).
  - reflexivity.
  - unfold MAX_RETRIES. lia.
  - reflexivity.
  - intros i k Hi Hk. assert (i = 0) as -> by lia. eauto.
  - exists "A". split; reflexivity.
Defined.

(** ** The capacities of the queues *)

Lemma put_maxsize {A} (x : A) (q q' : Queue A) :
  Q.put x q = Some q' → maxsize q' = maxsize q.
Proof. unfold Q.put. destruct (Q.full q); intros; by simplify_eq/=. Qed.

Lemma get_maxsize {A} (x : A) (q q' : Queue A) :
  Q.get q = Some (x, q') → maxsize q' = maxsize q.
Proof. unfold Q.get. destruct (items q); intros; by simplify_eq/=. Qed.

Lemma put_nowait_unbounded {A} (x : A) (q : Queue A) :
  maxsize q = 0 → Q.put_nowait x q = Ok (mkQueue 0 (items q ++ [x])).
Proof. intros H. unfold Q.put_nowait, Q.full. by rewrite H. Qed.

Lemma capacities_close (a : AudioLoop) : capacities (close_session a) = capacities a.
Proof. unfold close_session. by destruct (session a). Qed.

Lemma capacities_settle (m : Machine) :
  capacities (self (settle m)) = capacities (self m).
Proof.
  destruct (settle_cases m) as [[_ ->] | [(_ & _ & ->) | (_ & _ & ->)]];
    cbn; auto using capacities_close.
Qed.

Lemma capacities_after_init nc (a : AudioLoop) :
  capacities a → capacities (initialize_client nc a).1.2.
Proof.
  pose proof (initialize_client_frame nc a) as (H1 & H2 & H3 & H4 & _).
  unfold capacities. by rewrite H1, H2, H3, H4.
Qed.

Lemma on_response_unbounded (r : Response) (a : AudioLoop) :
  maxsize (audio_in_queue a) = 0 →
  on_response r a
  = match response_data r with
    | Some (b :: d) =>
        Ok (with_audio_in_queue (mkQueue 0 (items (audio_in_queue a) ++ [b :: d])) a, [])
    | _ =>
        Ok (a, match response_text r with
               | Some (String c t) => [EPrint (String c t)]
               | _ => []
               end)
    end.
Proof.
  intros Hmax. unfold on_response.
  destruct (response_data r) as [[|b d]|]; cbn [bytes_truthy].
  - by destruct (response_text r) as [[|]|].
  - by rewrite put_nowait_unbounded.
  - by destruct (response_text r) as [[|]|].
Qed.

Lemma capacities_step (m : Machine) (ev : event) :
  capacities (self m) → capacities (self (step m ev)).
Proof.
  intros Hcap.
  destruct ev; cbn [step];
    repeat match goal with
      | |- context [bool_decide ?P] => destruct (bool_decide P); [|done]
      | |- context [in_group ?p m] => destruct (in_group p m); [|done]
      end.
  - unfold run_start.
    pose proof (capacities_after_init new_client (self m) Hcap) as Hf.
    by destruct (initialize_client _ _) as [[[] a] tr].
  - unfold run_connect. by destruct (client (self m)), outcome.
  - unfold run_recover.
    pose proof (capacities_after_init new_client (self m) Hcap) as Hf.
    by destruct (initialize_client _ _) as [[[] a] tr].
  - unfold step_send_text.
    destruct (Q.get _) as [[text q]|] eqn:Hg; [|done].
    apply get_maxsize in Hg.
    assert (capacities (with_external_input_queue q (self m))) as Hc.
    { destruct Hcap as (?&?&?&?). unfold capacities. cbn. split_and!; congruence. }
    destruct (send_text_body _ _) as [[] sent]; unfold end_task;
      rewrite ?capacities_settle; done.
  - unfold step_send_realtime.
    destruct (Q.get _) as [[msg q]|] eqn:Hg; [|done]. apply get_maxsize in Hg.
    destruct Hcap as (?&?&?&?). unfold capacities. cbn. split_and!; congruence.
  - assert (Hput : ∀ c, capacities (self (capture_put c m))).
    { intros c. unfold capture_put.
      destruct (Q.put c _) as [q|] eqn:Hp; [|done]. apply put_maxsize in Hp.
      destruct Hcap as (?&?&?&?). unfold capacities. cbn. split_and!; congruence. }
    unfold step_listen. destruct (capture m); [done | apply Hput | apply Hput].
  - unfold recv_response. rewrite on_response_unbounded by apply Hcap.
    destruct (response_data r) as [[|b d]|]; try done.
    destruct Hcap as (?&?&?&?). unfold capacities. cbn. done.
  - unfold recv_turn_complete, on_turn_complete. rewrite drain_all.
    destruct Hcap as (?&?&?&?). unfold capacities. cbn. done.
  - unfold step_play.
    destruct (Q.get _) as [[b q]|] eqn:Hg; [|done]. apply get_maxsize in Hg.
    destruct Hcap as (?&?&?&?). unfold capacities. cbn. split_and!; congruence.
  - unfold end_task. by rewrite capacities_settle.
  - destruct (_config_task (self m)) as [[]|]; try done.
    unfold configure_session_step.
    destruct (Q.get _) as [[u q]|] eqn:Hg; [|done]. apply get_maxsize in Hg.
    destruct Hcap as (?&?&?&?). unfold capacities, apply_config. cbn.
    split_and!; congruence.
  - unfold run_cancel. destruct (pc m); try done.
    destruct (is_running_task _); [|done].
    unfold end_task. by rewrite capacities_settle.
  - destruct (Q.put _ _) as [q|] eqn:Hp; [|done]. apply put_maxsize in Hp.
    destruct Hcap as (?&?&?&?). unfold capacities. cbn. split_and!; congruence.
  - destruct (Q.put _ _) as [q|] eqn:Hp; [|done]. apply put_maxsize in Hp.
    destruct Hcap as (?&?&?&?). unfold capacities. cbn. split_and!; congruence.
Qed.

Lemma capacities_run (m : Machine) (evs : list event) :
  capacities (self m) → capacities (self (run_events m evs)).
Proof.
  revert m. induction evs as [|ev evs IH]; intros m H; [done|].
  cbn. by apply IH, capacities_step.
Qed.

(** X5. Under every sequence of events the inbound audio, text and
    configuration queues stay unbounded and the outbound one keeps capacity
    5.  So [receive_audio] never fails on a response: one that carries
    audio is queued and its text, if it has any, is not printed; one
    without audio (none, or empty) queues nothing and prints its text when
    that is not empty.  And [send_external_text] never blocks: the text is
    queued behind what waits. *)
Theorem queues_keep_their_capacities (km : KeyManager) (evs : list event) :
  let m := run_events (boot (attributes_after_reset km)) evs in
  capacities (self m)
  ∧ (∀ r,
       on_response r (self m)
       = match response_data r with
         | Some (b :: d) =>
             Ok (with_audio_in_queue
                   (mkQueue 0 (items (audio_in_queue (self m)) ++ [b :: d])) (self m),
                 [])
         | _ =>
             Ok (self m, match response_text r with
                         | Some (String c t) => [EPrint (String c t)]
                         | _ => []
                         end)
         end)
  ∧ (∀ text,
       external_input_queue (self (step m (UiSendText text)))
       = mkQueue 0 (items (external_input_queue (self m)) ++ [text])).
Proof.
  intros m.
  assert (Hcap : capacities (self m)).
  { apply capacities_run. by unfold capacities. }
  split; [done|]. split.
  - intros r. apply on_response_unbounded, Hcap.
  - intros text. cbn [step].
    destruct Hcap as (_ & _ & Hext & _).
    rewrite put_room by (left; done). cbn. by rewrite Hext.
Qed.

(** ** Captured audio on its way out *)

Lemma sent_chunks_app (tr es : list effect) :
  sent_chunks (tr ++ es) = sent_chunks tr ++ sent_chunks es.
Proof. apply omap_app. Qed.

Lemma settle_in_group (m : Machine) : pc (settle m) = InGroup → settle m = m.
Proof.
  destruct (settle_cases m) as [[_ ->] | [(_ & _ & ->) | (_ & _ & ->)]];
    [discriminate | discriminate | done].
Qed.

(** Ending a task changes neither the trace nor the outbound queue nor the
    capture pipeline, as long as the group goes on. *)
Lemma flow_end_task (m : Machine) (p : pipeline) (s : task_state) :
  pc (end_task p s m) = InGroup → flow (end_task p s m) = flow m.
Proof. unfold end_task. intros H. by rewrite (settle_in_group _ H). Qed.

Lemma flow_capture_put (c : AudioChunk) (m : Machine) :
  flow (capture_put c m)
  = sent_chunks (trace m) ++ items (out_queue (self m)) ++ [c].
Proof.
  unfold capture_put, flow.
  destruct (Q.put c (out_queue (self m))) as [q|] eqn:Hp; cbn; [|done].
  unfold Q.put in Hp. destruct (Q.full _); simplify_eq/=. by rewrite app_nil_r.
Qed.

Lemma flow_step (m : Machine) (ev : event) :
  pc m = InGroup → pc (step m ev) = InGroup →
  flow (step m ev) = flow m ++ reads m ev.
Proof.
  intros Hpc.
  destruct ev; cbn [step reads]; rewrite ?app_nil_r;
    repeat match goal with
      | |- context [bool_decide ?P] => case_bool_decide; [congruence | done]
      | |- context [in_group ?p m] =>
          destruct (in_group p m); [|by rewrite ?app_nil_r]
      end.
  - unfold step_send_text.
    destruct (Q.get _) as [[text q]|]; [|done].
    destruct (send_text_body _ text) as [ctl sent] eqn:Hb.
    assert (Hs : sent_chunks (map ESend sent) = []).
    { unfold send_text_body in Hb. repeat case_match; by simplify_eq/=. }
    set (m2 := emit (map ESend sent)
                 (with_self (with_external_input_queue q (self m)) m)).
    assert (Hflow : flow m2 = flow m).
    { unfold flow, m2. cbn. by rewrite sent_chunks_app, Hs, app_nil_r. }
    destruct ctl; first [ intros H; by rewrite (flow_end_task _ _ _ H) | done ].
  - intros _. unfold step_send_realtime, Q.get.
    destruct (items (out_queue (self m))) as [|msg rest] eqn:Hq; [done|].
    unfold flow. cbn. rewrite sent_chunks_app, Hq. cbn. by rewrite <- app_assoc.
  - intros _. unfold step_listen.
    destruct (capture m) as [| |c] eqn:Hc.
    + rewrite app_nil_r. unfold flow. cbn. by rewrite Hc.
    + rewrite flow_capture_put. unfold flow. rewrite Hc. cbn.
      by rewrite app_nil_r, app_assoc.
    + rewrite app_nil_r, flow_capture_put. unfold flow. by rewrite Hc.
  - unfold recv_response.
    destruct (on_response r (self m)) as [[a es]|e] eqn:Hr.
    + intros _. unfold on_response in Hr.
      repeat case_match; simplify_eq/=; unfold flow; cbn;
        rewrite ?sent_chunks_app; cbn; by rewrite ?app_nil_r.
    + intros H. by rewrite (flow_end_task _ _ _ H).
  - intros _. unfold recv_turn_complete, on_turn_complete.
    by rewrite drain_all.
  - intros _. unfold step_play.
    destruct (Q.get _) as [[b q]|]; [|done].
    unfold flow. cbn. rewrite sent_chunks_app. cbn. by rewrite app_nil_r.
  - intros H. by rewrite (flow_end_task _ _ _ H).
  - intros _. destruct (_config_task (self m)) as [[]|]; try done.
    unfold configure_session_step. by destruct (Q.get _) as [[u q]|].
  - unfold run_cancel. rewrite Hpc.
    destruct (is_running_task _); [|discriminate].
    intros H. by rewrite (flow_end_task _ _ _ H).
  - intros _. by destruct (Q.put _ _).
  - intros _. by destruct (Q.put _ _).
Qed.

Lemma captured_mime (m : Machine) (evs : list event) :
  Forall (λ c, mime_type c = "audio/pcm") (captured m evs).
Proof.
  revert m. induction evs as [|ev evs IH]; intros m; cbn [captured]; [constructor|].
  apply Forall_app. split; [|apply IH].
  unfold reads. destruct ev; try constructor.
  destruct (in_group _ _); [|constructor].
  destruct (capture m); repeat constructor.
Qed.

(** X6. While the group runs, captured audio leaves in the order it was
    captured, nothing lost and nothing repeated: after any events during
    which [run] stays inside the group, the chunks sent so far, followed by
    those queued, followed by the one the capture pipeline holds, are what
    they were before followed by exactly the chunks [listen_audio] has
    read meanwhile, in the order read, each tagged ["audio/pcm"]. *)
Theorem realtime_audio_in_order (m : Machine) (evs : list event) :
  Forall (λ x, pc x = InGroup) (trajectory m evs) →
  flow (run_events m evs) = flow m ++ captured m evs
  ∧ Forall (λ c, mime_type c = "audio/pcm") (captured m evs).
Proof.
  intros Htraj. split; [|apply captured_mime].
  revert m Htraj. induction evs as [|ev evs IH]; intros m Htraj.
  - cbn. by rewrite app_nil_r.
  - cbn [trajectory] in Htraj. apply Forall_cons in Htraj as [Hpc Htraj].
    assert (Hpc' : pc (step m ev) = InGroup).
    { destruct evs; cbn [trajectory] in Htraj; by apply Forall_cons in Htraj as [? _]. }
    change (run_events m (ev :: evs)) with (run_events (step m ev) evs).
    rewrite (IH _ Htraj), (flow_step m ev Hpc Hpc'). cbn [captured].
    by rewrite <- app_assoc.
Qed.

Lemma realtime_audio_in_order_witness :
  flow (run_events demo_full
          [StepSendRealtime; StepListen [Byte.x07]; StepSendRealtime;
           StepListen [Byte.x08]; StepListen [Byte.x09]])
  = flow demo_full ++ [mkChunk [Byte.x08] "audio/pcm"; mkChunk [Byte.x09] "audio/pcm"].
Proof.
  refine (proj1 (realtime_audio_in_order demo_full
                   [StepSendRealtime; StepListen [Byte.x07]; StepSendRealtime;
                    StepListen [Byte.x08]; StepListen [Byte.x09]] _)).
  refine (bool_decide_unpack _ _). vm_compute. exact I.
Defined.

(** ** Reconnection and the end of [run] *)

Lemma carried_close (a : AudioLoop) : carried (close_session a) = carried a.
Proof. unfold close_session. by destruct (session a). Qed.

Lemma carried_after_init nc (a : AudioLoop) :
  carried (initialize_client nc a).1.2 = carried a.
Proof.
  pose proof (initialize_client_frame nc a)
    as (H1 & H2 & H3 & H4 & H5 & H6 & H7 & _).
  unfold carried. by rewrite H1, H2, H3, H4, H5, H6, H7.
Qed.

Lemma initialize_client_from_ok nc n :
  ∀ retries last_error a tr u a' tr',
    MAX_RETRIES - retries = n →
    initialize_client_from nc retries last_error a tr = (Ok u, a', tr') →
    ∃ c, client a' = Some c.
Proof.
  induction n as [|n IH]; intros retries last_error a tr u a' tr' Hn;
    rewrite initialize_client_from_eq.
  - rewrite decide_False by lia. discriminate.
  - rewrite decide_True by lia.
    destruct (try_new_client nc retries a) as [[[c|e] a1] tr1].
    + intros H. injection H as _ <- _. by exists c.
    + apply IH. lia.
Qed.

Lemma initialize_client_ok nc a u a' tr' :
  initialize_client nc a = (Ok u, a', tr') → ∃ c, client a' = Some c.
Proof. by apply (initialize_client_from_ok nc MAX_RETRIES). Qed.

(** X7. A reconnection resets nothing: when a pipeline fails and [run]
    builds a new client and connects again, the four queues (with whatever
    audio, text and updates they hold) and the three settings are exactly
    what they were before the failure, whether or not the new connection
    attempt succeeds; when it succeeds the group runs again.  (Stated for
    the runs in which the client is rebuilt, so that [run] has not
    ended.) *)
Theorem reconnect_carries_queues (m : Machine) (p : pipeline) (e : exn)
    (nc : nat → string → result Client) (o : option exn) :
  in_group p m = true →
  on_exception p e = Failed e →
  let m3 := run_events m [Raises p e; Recover nc; Connect o] in
  pc m3 ≠ Returned →
  carried (self m3) = carried (self m)
  ∧ (pc m3 = InGroup ∨ pc m3 = InHandler)
  ∧ (o = None → pc m3 = InGroup ∧ tasks m3 = spawned).
Proof.
  intros Hin Hesc. cbn [run_events fold_left step]. rewrite Hin, Hesc.
  rewrite end_task_failed.
  set (m1 := with_pc InHandler
               (leave_group (with_tasks (set_task p (Failed e) (tasks m)) m))).
  assert (Hc1 : carried (self m1) = carried (self m)) by apply carried_close.
  replace (bool_decide (pc m1 = InHandler)) with true by reflexivity.
  unfold run_recover.
  pose proof (carried_after_init nc (self m1)) as Hc2.
  destruct (initialize_client nc (self m1)) as [[[[]|e'] a] tr] eqn:Hi;
    cbn [fst snd] in Hc2.
  - destruct (initialize_client_ok _ _ _ _ _ Hi) as [c Hc].
    cbn [pc with_pc]. rewrite bool_decide_true by done.
    unfold run_connect. cbn [self with_pc emit with_self]. rewrite Hc.
    assert (Hc3 : carried a = carried (self m)) by congruence.
    destruct o; intros _; (split; [exact Hc3|]); split; auto; done.
  - cbn. intros H. by destruct H.
Qed.

Lemma reconnect_carries_queues_witness :
  let m3 := run_events demo_full
              [Raises SendRealtime (ConnectionError "reset"); Recover client_ok;
               Connect None] in
  carried (self m3) = carried (self demo_full) ∧ pc m3 = InGroup.
Proof.
  destruct (reconnect_carries_queues demo_full SendRealtime (ConnectionError "reset")
              client_ok None) as (H1 & _ & H3); try reflexivity.
  - vm_compute. discriminate.
  - split; [exact H1 | by apply H3].
Defined.





(** ** Text and playback in order *)

(** X9. Text injection keeps the order: while [send_text] runs, the texts
    at the head of the text queue, none of them the quit token, are handed
    to [session.send] one by one in queue order, each as a turn-ending
    message (the empty one as ["."]); nothing else is sent meanwhile, the
    texts behind them stay queued and the pipeline is still running. *)
Theorem texts_forwarded_in_order (texts rest : list string) (m : Machine) :
  in_group SendText m = true →
  items (external_input_queue (self m)) = texts ++ rest →
  Forall (λ t, PyStr.lower t ≠ "q") texts →
  let m' := run_events m (replicate (length texts) (StepSendText None)) in
  trace m' = trace m ++ map (λ t, ESend (TextInput (PyStr.or_else t ".") true)) texts
  ∧ items (external_input_queue (self m')) = rest
  ∧ in_group SendText m' = true.
Proof.
  revert m. induction texts as [|t texts IH]; intros m Hin Hq Hall.
  - cbn. by rewrite app_nil_r.
  - apply Forall_cons in Hall as [Ht Hall].
    cbn [length replicate run_events fold_left].
    set (m1 := step m (StepSendText None)).
    assert (Hm1 : m1 = emit [ESend (TextInput (PyStr.or_else t ".") true)]
                         (with_self
                            (with_external_input_queue
                               (mkQueue (maxsize (external_input_queue (self m)))
                                  (texts ++ rest)) (self m)) m)).
    { unfold m1. cbn [step]. rewrite Hin. unfold step_send_text, Q.get.
      rewrite Hq. cbn [app]. unfold send_text_body.
      by destruct (String.eqb_spec (PyStr.lower t) "q"). }
    destruct (IH m1) as (Htr & Hrest & Hin'); [by rewrite Hm1 | by rewrite Hm1 | done |].
    fold (run_events m1 (replicate (length texts) (StepSendText None))).
    split_and!; [|done|done].
    rewrite Htr, Hm1. cbn. by rewrite <- app_assoc.
Qed.

Lemma texts_forwarded_in_order_witness :
  trace (run_events demo_texts [StepSendText None; StepSendText None; StepSendText None])
  = trace demo_texts
    ++ [ESend (TextInput "hello" true); ESend (TextInput "." true);
        ESend (TextInput "bye" true)].
Proof.
  assert (Hall : Forall (λ t, PyStr.lower t ≠ "q") ["hello"; ""; "bye"])
    by (repeat constructor; discriminate).
  exact (proj1 (texts_forwarded_in_order ["hello"; ""; "bye"] [] demo_texts
                  eq_refl eq_refl Hall)).
Defined.

Lemma step_play_empty (m : Machine) :
  items (audio_in_queue (self m)) = [] → step m StepPlay = m.
Proof.
  intros Hq. cbn [step]. destruct (in_group PlayAudio m); [|done].
  unfold step_play, Q.get. by rewrite Hq.
Qed.

(** X10. Playback keeps the arrival order, and an ended turn silences it:
    while [play_audio] runs, the chunks at the head of the inbound queue
    are written to the output one by one in queue order; and after the end
    of a turn nothing that was buffered before it is ever played, however
    often the playback pipeline is scheduled. *)
Theorem playback_in_arrival_order (bs rest : list bytes) (m : Machine) :
  in_group PlayAudio m = true →
  items (audio_in_queue (self m)) = bs ++ rest →
  let m' := run_events m (replicate (length bs) StepPlay) in
  trace m' = trace m ++ map EPlay bs
  ∧ items (audio_in_queue (self m')) = rest
  ∧ in_group PlayAudio m' = true
  ∧ (in_group ReceiveAudio m = true →
     ∀ n, trace (run_events (step m' RecvTurnComplete) (replicate n StepPlay))
          = trace m').
Proof.
  revert m. induction bs as [|b bs IH]; intros m Hin Hq.
  - cbn [length replicate run_events fold_left map]. rewrite app_nil_r.
    split_and!; try done.
    intros Hrecv n. cbn [step]. rewrite Hrecv.
    unfold recv_turn_complete, on_turn_complete. rewrite drain_all.
    set (m0 := with_self _ m).
    assert (Hm0 : items (audio_in_queue (self m0)) = []) by done.
    change (trace m) with (trace m0). clearbody m0.
    induction n as [|n IHn]; [done|].
    cbn [replicate run_events fold_left]. by rewrite step_play_empty.
  - cbn [length replicate run_events fold_left].
    set (m1 := step m StepPlay).
    assert (Hm1 : m1 = emit [EPlay b]
                         (with_self
                            (with_audio_in_queue
                               (mkQueue (maxsize (audio_in_queue (self m))) (bs ++ rest))
                               (self m)) m)).
    { unfold m1. cbn [step]. rewrite Hin. unfold step_play, Q.get. by rewrite Hq. }
    destruct (IH m1) as (Htr & Hrest & Hin' & Hsil); [by rewrite Hm1 | by rewrite Hm1 |].
    fold (run_events m1 (replicate (length bs) StepPlay)).
    split_and!; [|done|done|].
    + rewrite Htr, Hm1. cbn. by rewrite <- app_assoc.
    + intros Hrecv. apply Hsil. by rewrite Hm1.
Qed.

Lemma playback_in_arrival_order_witness :
  trace (run_events demo_buffered [StepPlay; StepPlay])
  = trace demo_buffered ++ [EPlay [Byte.x01]; EPlay [Byte.x02; Byte.x03]]
  ∧ trace (run_events demo_buffered [StepPlay; StepPlay; RecvTurnComplete; StepPlay])
    = trace (run_events demo_buffered [StepPlay; StepPlay]).
Proof.
  pose proof (playback_in_arrival_order [[Byte.x01]; [Byte.x02; Byte.x03]] [[Byte.x04]]
                demo_buffered eq_refl eq_refl) as (H1 & _ & _ & H4).
  split; [exact H1 | exact (H4 eq_refl 1)].
Defined.

(** ** The control panel *)

(** X11. What the panel types into the session: [send_message] queues
    nothing when the input is blank or the runner is not running;
    otherwise it queues the input trimmed, behind what waits, and shows
    it.  What it queues is never empty, so [send_text] never replaces a
    text from the panel by ["."]; and [send_text] takes it for the quit
    token exactly when the trimmed input is ["q"] or ["Q"], blanks around
    it included. *)
Theorem typed_message_is_trimmed (input : string) (m : Machine) :
  let t := PyStr.strip input in
  (t = "" → ∀ running, send_message input running m = (m, []))
  ∧ send_message input false m = (m, [])
  ∧ (t ≠ "" → maxsize (external_input_queue (self m)) = 0 →
     let r := send_message input true m in
     r.2 = [t]
     ∧ items (external_input_queue (self r.1))
       = items (external_input_queue (self m)) ++ [t]
     ∧ PyStr.strip t = t
     ∧ ∀ send,
         ((send_text_body send t).1 = Break ↔ t = "q" ∨ t = "Q")
         ∧ ((send_text_body send t).1 ≠ Break →
            (send_text_body send t).2 = [TextInput t true])).
Proof.
  intros t. unfold send_message. fold t. split_and!.
  - intros Ht running. by rewrite Ht.
  - by rewrite andb_false_r.
  - intros Ht Hmax.
    pose proof (proj2 (PyStrFacts.truthy_true t) Ht) as Htr.
    rewrite Htr. cbn [andb fst snd step].
    rewrite put_room by (by left). cbn.
    split_and!; try done.
    + apply StripFacts.strip_idem.
    + intros send. unfold send_text_body.
      destruct (String.eqb_spec (PyStr.lower t) "q") as [Hq|Hq]; cbn [fst snd].
      * split; [|done]. split; [intros _; by apply PyStrFacts.lower_is_q | done].
      * assert (PyStr.or_else t "." = t) as -> by (by destruct t).
        split.
        -- split; [by destruct (send _) | ].
           intros Hqq. by apply PyStrFacts.lower_is_q in Hqq.
        -- by destruct (send _).
Qed.

Lemma typed_message_is_trimmed_witness :
  (send_message "  Q " true demo_active).2 = ["Q"]
  ∧ (send_text_body (λ _, None) (PyStr.strip "  Q ")).1 = Break.
Proof.
  destruct (typed_message_is_trimmed "  Q " demo_active) as (_ & _ & H).
  destruct H as (H1 & _ & _ & H4); [discriminate | reflexivity |].
  split; [exact H1|]. apply (H4 (λ _, None)). by right.
Defined.

(** X12. The settings given to [AsyncRunner.start]: no orchestrator is
    built only when the credentials cannot be loaded; when one is built,
    [run], on building its client at the first attempt and
    connecting, opens the first session with exactly the settings given:
    the response mode, the system instruction, and the voice when the
    response mode is ["AUDIO"] (no speech configuration otherwise). *)
Theorem start_settings_open_first_session (env : option string) (g : Random)
    (v si mode : string) :
  match AsyncRunner_start env g v si mode with
  | None => ∃ e, _load_api_keys env = Raise e
  | Some m =>
      pc m = AtInit
      ∧ ∃ k km,
          get_next_key (key_manager (self m)) = Ok (k, km)
          ∧ ∀ nc c, nc 0 k = Ok c →
              let m2 := run_events m [Start nc; Connect None] in
              pc m2 = InGroup
              ∧ tasks m2 = spawned
              ∧ session (self m2)
                = Some (mkSession MODEL
                          (mkLiveConfig [mode] si
                             (if String.eqb mode "AUDIO" then Some v else None))
                          c false)
  end.
Proof.
  unfold AsyncRunner_start, AudioLoop_init, KeyManager_init.
  destruct (_load_api_keys env) as [keys|e] eqn:Hload; [|by exists e].
  split; [done|].
  assert (Hne : keys ≠ []).
  { unfold _load_api_keys in Hload. destruct (negb _); [discriminate|].
    destruct (map _ _); [discriminate|]. injection Hload as <-. done. }
  destruct (get_next_key_ok (_initialize_queue (mkKeyManager keys [] g)))
    as (k & km & Hget & _).
  { by rewrite initialize_queue_keys. }
  exists k, km. split; [exact Hget|].
  intros nc c Hc.
  set (a0 := with_response_mode mode (with_system_instruction si (with_voice v _))).
  assert (H1 : step (boot a0) (Start nc)
               = with_pc AtConnect
                   (emit [EKey k; ENewClient k]
                      (with_self
                         (with_config_task (Some Running)
                            (with_client (Some c) (with_key_manager km a0)))
                         (boot a0)))).
  { cbn [step]. rewrite bool_decide_true by done. unfold run_start.
    by rewrite (initialize_client_first_try nc (self (boot a0)) k km c Hget Hc). }
  cbn [run_events fold_left]. rewrite H1. cbn [step].
  rewrite bool_decide_true by done. done.
Qed.

Lemma start_settings_open_first_session_witness :
  ∃ m, AsyncRunner_start (Some "A,B") (mkRandom (λ i, i) 0) "Kore" "Be brief." "TEXT"
       = Some m
       ∧ established (self (run_events m [Start client_ok; Connect None]))
         = Some (mkLiveConfig ["TEXT"] "Be brief." None).
Proof.
  pose proof (start_settings_open_first_session
                (Some "A,B") (mkRandom (λ i, i) 0) "Kore" "Be brief." "TEXT") as H.
  destruct (AsyncRunner_start _ _ _ _ _) as [m|] eqn:Hm; [|discriminate Hm].
  exists m. split; [reflexivity|].
  destruct H as (_ & k & km & _ & H).
  injection Hm as <-.
  destruct (H client_ok (mkClient k "v1alpha") eq_refl) as (_ & _ & Hs).
  unfold established. rewrite Hs. reflexivity.
Defined.

(** ** Configuration updates compose *)

(** X13. Configuration updates merge, the later one winning: applying
    [u1] and then [u2] is applying the single update that has the entries
    of [u2] and, for the keys [u2] lacks, those of [u1]; applying an update
    twice is applying it once; and an entry under any key other than the
    three settings changes nothing. *)
Theorem config_updates_merge (u1 u2 : gmap string string) (a : AudioLoop) :
  apply_config u2 (apply_config u1 a) = apply_config (u2 ∪ u1) a
  ∧ apply_config u1 (apply_config u1 a) = apply_config u1 a
  ∧ (∀ k v, k ≠ "voice" → k ≠ "system_instruction" → k ≠ "response_mode" →
       apply_config (<[k := v]> u1) a = apply_config u1 a).
Proof.
  unfold apply_config, dict_get. cbn. split_and!.
  - rewrite !lookup_union.
    by destruct (u2 !! "voice"), (u1 !! "voice"),
      (u2 !! "system_instruction"), (u1 !! "system_instruction"),
      (u2 !! "response_mode"), (u1 !! "response_mode").
  - by destruct (u1 !! "voice"), (u1 !! "system_instruction"), (u1 !! "response_mode").
  - intros k v H1 H2 H3. by rewrite !lookup_insert_ne.
Qed.

Lemma config_updates_merge_witness :
  apply_config {[ "voice" := "Kore" ]}
    (apply_config {[ "voice" := "Aoede"; "response_mode" := "TEXT" ]} demo_loop)
  = apply_config {[ "voice" := "Kore"; "response_mode" := "TEXT"; "colour" := "red" ]}
      demo_loop.
Proof.
  rewrite (proj1 (config_updates_merge
                    {[ "voice" := "Aoede"; "response_mode" := "TEXT" ]}
                    {[ "voice" := "Kore" ]} demo_loop)).
  reflexivity.
Defined.

(** ** Errors that do not reach the group *)

Lemma sent_texts_app (tr es : list effect) :
  sent_texts (tr ++ es) = sent_texts tr ++ sent_texts es.
Proof. apply omap_app. Qed.

Lemma initialize_client_from_no_text nc n :
  ∀ retries last_error a tr,
    MAX_RETRIES - retries = n →
    sent_texts (initialize_client_from nc retries last_error a tr).2 = sent_texts tr.
Proof.
  induction n as [|n IH]; intros retries last_error a tr Hn;
    rewrite initialize_client_from_eq.
  - by rewrite decide_False by lia.
  - rewrite decide_True by lia. unfold try_new_client.
    destruct (get_next_key (key_manager a)) as [[k km]|e].
    + destruct (nc retries k) as [c|e]; cbn [snd].
      * rewrite sent_texts_app. cbn. by rewrite app_nil_r.
      * rewrite IH by lia. rewrite !sent_texts_app.
        destruct (Nat.ltb _ _); cbn; by rewrite ?app_nil_r.
    + rewrite IH by lia. rewrite !sent_texts_app.
      destruct (Nat.ltb _ _); cbn; by rewrite ?app_nil_r.
Qed.

Lemma initialize_client_no_text nc a : sent_texts (initialize_client nc a).2 = [].
Proof.
  unfold initialize_client.
  by rewrite (initialize_client_from_no_text nc MAX_RETRIES).
Qed.

Lemma settle_text_stopped (m : Machine) :
  task (tasks m) SendText ≠ Running →
  task (tasks (settle m)) SendText ≠ Running
  ∧ sent_texts (trace (settle m)) = sent_texts (trace m).
Proof.
  intros Hst.
  assert (Hleave : ∀ c,
            task (tasks (with_pc c (leave_group m))) SendText ≠ Running
            ∧ sent_texts (trace (with_pc c (leave_group m))) = sent_texts (trace m)).
  { intros c. split; [apply cancelled_not_running|].
    cbn [trace with_pc leave_group emit]. rewrite sent_texts_app.
    cbn. by rewrite app_nil_r. }
  destruct (settle_cases m) as [[_ ->] | [(_ & _ & ->) | (_ & _ & ->)]];
    [apply Hleave | apply Hleave | done].
Qed.

Lemma in_group_stopped (p : pipeline) (m : Machine) :
  task (tasks m) p ≠ Running → in_group p m = false.
Proof.
  intros Hst. unfold in_group.
  destruct (task (tasks m) p) eqn:E; cbn [is_running_task];
    first [ by destruct Hst | apply andb_false_r ].
Qed.

(** Once [send_text] has returned, no step but a new connection starts it
    again, and no text is sent. *)
Lemma text_stopped_step (m : Machine) (ev : event) :
  (∀ o, ev ≠ Connect o) →
  task (tasks m) SendText ≠ Running →
  task (tasks (step m ev)) SendText ≠ Running
  ∧ sent_texts (trace (step m ev)) = sent_texts (trace m).
Proof.
  intros Hev Hst.
  assert (Hend : ∀ p s m0,
            p ≠ SendText →
            task (tasks m0) SendText ≠ Running →
            task (tasks (end_task p s m0)) SendText ≠ Running
            ∧ sent_texts (trace (end_task p s m0)) = sent_texts (trace m0)).
  { intros p s m0 Hp H0. unfold end_task.
    destruct (settle_text_stopped (with_tasks (set_task p s (tasks m0)) m0)) as [H1 H2].
    - cbn [tasks with_tasks]. by rewrite task_set_task_ne.
    - done. }
  assert (Hno : in_group SendText m = false).
  { unfold in_group. destruct (task (tasks m) SendText); try done.
    all: by rewrite andb_false_r. }
  destruct ev; cbn [step]; rewrite ?Hno; try done;
    repeat match goal with
      | |- context [bool_decide ?P] => destruct (bool_decide P); [|done]
      | |- context [in_group ?p m] => destruct (in_group p m) eqn:?; [|done]
      end.
  - unfold run_start.
    pose proof (initialize_client_no_text new_client (self m)) as Ht.
    destruct (initialize_client _ _) as [[[] a] tr]; cbn [snd] in Ht;
      cbn -[sent_texts]; by rewrite sent_texts_app, Ht, app_nil_r.
  - by destruct (Hev outcome).
  - unfold run_recover.
    pose proof (initialize_client_no_text new_client (self m)) as Ht.
    destruct (initialize_client _ _) as [[[] a] tr]; cbn [snd] in Ht;
      cbn -[sent_texts]; rewrite ?sent_texts_app, ?Ht; cbn; by rewrite ?app_nil_r.
  - unfold step_send_realtime. destruct (Q.get _) as [[msg q]|]; [|done].
    cbn. rewrite sent_texts_app. cbn. by rewrite app_nil_r.
  - unfold step_listen, capture_put.
    destruct (capture m); try done; by destruct (Q.put _ _).
  - unfold recv_response.
    destruct (on_response r (self m)) as [[a es]|e] eqn:Hr; [|by apply Hend].
    unfold on_response in Hr.
    repeat case_match; simplify_eq/=; rewrite ?sent_texts_app; cbn;
      by rewrite ?app_nil_r.
  - unfold recv_turn_complete, on_turn_complete. by rewrite drain_all.
  - unfold step_play. destruct (Q.get _) as [[b q]|]; [|done].
    cbn. rewrite sent_texts_app. cbn. by rewrite app_nil_r.
  - apply Hend; [|done]. intros ->. congruence.
  - destruct (_config_task (self m)) as [[]|]; done.
  - unfold run_cancel. destruct (pc m); try done.
    assert (is_running_task (task (tasks m) SendText) = false) as ->
      by (by destruct (task (tasks m) SendText)).
    split; [apply cancelled_not_running|].
    cbn -[sent_texts]. rewrite sent_texts_app. cbn. by rewrite app_nil_r.
  - by destruct (Q.put _ _).
  - by destruct (Q.put _ _).
Qed.

(** X14. An error while sending a text is swallowed by [send_text]: when
    [session.send] raises on a text that is not the quit token, while the
    other four pipelines run, the text pipeline ends normally and nothing
    else happens: the group keeps running with its session as it is and no
    reconnection starts.  From then on, whatever happens, no text is read
    from the queue or sent until [run] opens a new connection (which
    creates a new [send_text] task). *)
Theorem send_text_error_is_swallowed (m : Machine) (e : exn) (text : string)
    (q : Queue string) :
  in_group SendText m = true →
  (∀ p, p ≠ SendText → task (tasks m) p = Running) →
  Q.get (external_input_queue (self m)) = Some (text, q) →
  PyStr.lower text ≠ "q" →
  let m' := step m (StepSendText (Some e)) in
  pc m' = InGroup
  ∧ task (tasks m') SendText = Done
  ∧ (∀ p, p ≠ SendText → task (tasks m') p = Running)
  ∧ session (self m') = session (self m)
  ∧ trace m' = trace m ++ [ESend (TextInput (PyStr.or_else text ".") true)]
  ∧ ∀ evs, Forall (λ ev, ∀ o, ev ≠ Connect o) evs →
      in_group SendText (run_events m' evs) = false
      ∧ sent_texts (trace (run_events m' evs)) = sent_texts (trace m').
Proof.
  intros Hin Hrun Hget Hq m'.
  pose proof (in_group_pc _ _ Hin) as Hpc.
  assert (Hm' : m' = with_tasks (set_task SendText Done (tasks m))
                       (emit [ESend (TextInput (PyStr.or_else text ".") true)]
                          (with_self (with_external_input_queue q (self m)) m))).
  { unfold m'. cbn [step]. rewrite Hin. unfold step_send_text. rewrite Hget.
    unfold send_text_body.
    destruct (String.eqb_spec (PyStr.lower text) "q") as [?|_]; [done|].
    cbn [map on_exception]. by rewrite end_task_send_text_waits. }
  rewrite Hm'. split_and!; try done.
  - intros p Hp. cbn [tasks with_tasks]. rewrite task_set_task_ne by done.
    by apply Hrun.
  - intros evs Hevs.
    set (m1 := with_tasks _ _).
    assert (Hst : task (tasks m1) SendText ≠ Running) by done.
    clearbody m1. revert m1 Hst.
    induction Hevs as [|ev evs Hev _ IH]; intros m1 Hst.
    + split; [|done]. by apply in_group_stopped.
    + destruct (text_stopped_step m1 ev Hev Hst) as [Hst1 Htr1].
      change (run_events m1 (ev :: evs)) with (run_events (step m1 ev) evs).
      destruct (IH _ Hst1) as [H1 H2]. split; [done | congruence].
Qed.

Lemma send_text_error_is_swallowed_witness :
  let m := step demo_active (UiSendText "hello") in
  let m' := step m (StepSendText (Some (ConnectionError "lost"))) in
  pc m' = InGroup ∧ task (tasks m') SendText = Done
  ∧ sent_texts (trace (run_events m' [UiSendText "again"; StepSendText None; StepPlay]))
    = sent_texts (trace m').
Proof.
  pose proof (send_text_error_is_swallowed
                (step demo_active (UiSendText "hello")) (ConnectionError "lost")
                "hello" (mkQueue 0 []) eq_refl) as H.
  destruct H as (H1 & H2 & _ & _ & _ & H6);
    [ intros p Hp; destruct p; first [ reflexivity | by destruct Hp ]
    | reflexivity | discriminate | ].
  split; [exact H1|]. split; [exact H2|].
  apply H6. repeat constructor; discriminate.
Defined.

(** ** Connection attempts have no bound *)

(** X15. The bound of three is on building the client, not on connecting:
    when [live.connect] fails [n] times in a row while each rebuild of the
    client succeeds at once, [run] is at the top of its loop again after
    all of them, ready for attempt [n+1], for every [n]; it has tried to
    connect [n] times. *)
Theorem connect_retries_unbounded (n : nat) (e : exn) (m : Machine) :
  pc m = AtConnect →
  is_Some (client (self m)) →
  _keys (key_manager (self m)) ≠ [] →
  let m' := run_events m (failed_connects n e client_ok) in
  pc m' = AtConnect
  ∧ is_Some (client (self m'))
  ∧ length (List.filter is_connect (trace m'))
    = length (List.filter is_connect (trace m)) + n.
Proof.
  revert m. induction n as [|n IH]; intros m Hpc [c0 Hc] Hkeys.
  - cbn. split_and!; [done | by exists c0 | lia].
  - unfold failed_connects. cbn [replicate mjoin list_join app run_events fold_left].
    fold (failed_connects n e client_ok).
    assert (Hs1 : step m (Connect (Some e))
                  = with_pc InHandler (emit [EConnect c0 (build_config (self m))] m)).
    { cbn [step]. rewrite bool_decide_true by done.
      unfold run_connect. by rewrite Hc. }
    rewrite Hs1.
    set (m1 := with_pc InHandler (emit [EConnect c0 (build_config (self m))] m)).
    destruct (get_next_key_ok _ Hkeys) as (k & km & Hget & Hk).
    assert (Hs2 : step m1 (Recover client_ok)
                  = with_pc AtConnect
                      (emit ([EKey k; ENewClient k] ++ [ESleep RETRY_DELAY])
                         (with_self
                            (with_client (Some (mkClient k "v1alpha"))
                               (with_key_manager km (self m1))) m1))).
    { cbn [step]. change (pc m1) with InHandler.
      rewrite bool_decide_true by done. unfold run_recover.
      by rewrite (initialize_client_first_try client_ok (self m1) k km
                    (mkClient k "v1alpha") Hget eq_refl). }
    rewrite Hs2.
    set (m2 := with_pc AtConnect _).
    destruct (IH m2) as (H1 & H2 & H3).
    + done.
    + by eexists.
    + unfold m2. cbn. congruence.
    + change (pc (run_events m2 (failed_connects n e client_ok)) = AtConnect
              ∧ is_Some (client (self (run_events m2 (failed_connects n e client_ok))))
              ∧ length (List.filter is_connect
                          (trace (run_events m2 (failed_connects n e client_ok))))
                = length (List.filter is_connect (trace m)) + S n).
      split_and!; [done | done |].
      rewrite H3. unfold m2, m1. cbn.
      rewrite !List.filter_app, !length_app. cbn. lia.
Qed.

Lemma connect_retries_unbounded_witness :
  let m := step (boot demo_loop) (Start client_ok) in
  let m' := run_events m (failed_connects 5 (ConnectionError "refused") client_ok) in
  pc m' = AtConnect ∧ length (List.filter is_connect (trace m')) = 5.
Proof.
  pose proof (connect_retries_unbounded 5 (ConnectionError "refused")
                (step (boot demo_loop) (Start client_ok)) eq_refl) as H.
  destruct H as (H1 & _ & H3).
  - by eexists.
  - vm_compute. discriminate.
  - split; [exact H1 | exact H3].
Defined.

(** ** The text pipeline and its end *)

(** C10 (amended). For every string that [send_text] takes from the
    queue: the loop breaks exactly when the lowercase form of the string
    is ["q"], that is for ["q"] and ["Q"] and for no other string, and then
    nothing is sent; any other string is handed once to [session.send]
    with [end_of_turn=True], the empty string as ["."].  The pipeline is
    still running afterwards exactly when the string is not a quit token
    and the send returns: it ends on the quit token, and it ends as well
    when the send raises (the pipeline catches the exception). *)
Theorem send_text_quit_iff (send : message → option exn) (text : string) :
  let r := send_text_body send text in
  let msg := TextInput (if decide (text = "") then "." else text) true in
  (r.1 = Break ↔ PyStr.lower text = "q")
  ∧ (PyStr.lower text = "q" ↔ text = "q" ∨ text = "Q")
  ∧ (r.1 = Break → r.2 = [])
  ∧ (r.1 ≠ Break →
     r.2 = [msg]
     ∧ (r.1 = Continue ↔ send msg = None)
     ∧ (∀ e, r.1 = Raised e ↔ send msg = Some e))
  ∧ (∀ m q o,
       in_group SendText m = true →
       Q.get (external_input_queue (self m)) = Some (text, q) →
       task (tasks (step m (StepSendText o))) SendText = Running
       ↔ PyStr.lower text ≠ "q" ∧ o = None).
Proof.
  intros r msg.
  assert (Hmsg : TextInput (PyStr.or_else text ".") true = msg).
  { unfold msg. destruct text; reflexivity. }
  split_and!.
  - unfold r, send_text_body.
    destruct (String.eqb_spec (PyStr.lower text) "q"); [done|].
    destruct (send _); cbn; split; intros; done.
  - apply PyStrFacts.lower_is_q.
  - unfold r, send_text_body.
    destruct (String.eqb_spec (PyStr.lower text) "q"); [done|].
    by destruct (send _).
  - unfold r, send_text_body. rewrite Hmsg.
    destruct (String.eqb_spec (PyStr.lower text) "q"); [done|]. intros _.
    destruct (send msg) as [e0|]; cbn; split_and!; try done.
    intros e. split; intros H; congruence.
  - intros m q o Hin Hget.
    assert (Hend : ∀ m0,
              task (tasks (end_task SendText Done m0)) SendText ≠ Running).
    { intros m0. unfold end_task.
      apply (settle_text_stopped (with_tasks (set_task SendText Done (tasks m0)) m0)).
      cbn [tasks with_tasks]. by rewrite task_set_task_eq. }
    cbn [step]. rewrite Hin. unfold step_send_text. rewrite Hget.
    unfold send_text_body.
    destruct (String.eqb_spec (PyStr.lower text) "q") as [Hq|Hq].
    + split; [intros H; by apply Hend in H | by intros [? _]].
    + destruct o as [e|]; cbn [on_exception].
      * split; [intros H; by apply Hend in H | by intros [_ ?]].
      * split; [done|]. intros _. cbn [tasks emit with_self].
        by apply in_group_running.
Qed.

Lemma send_text_quit_witness :
  (send_text_body (λ _, None) "Q").1 = Break
  ∧ send_text_body (λ _, None) "" = (Continue, [TextInput "." true])
  ∧ send_text_body (λ _, None) "qq" = (Continue, [TextInput "qq" true])
  ∧ (let m := step demo_active (UiSendText "hello") in
     in_group SendText m = true
     ∧ (fst <$> Q.get (external_input_queue (self m))) = Some "hello"
     ∧ task (tasks (step m (StepSendText None))) SendText = Running).
Proof.
  split; [|split; [reflexivity|split; [reflexivity|]]].
  - apply (proj1 (send_text_quit_iff (λ _, None) "Q")). reflexivity.
  - split; [reflexivity|]. split; [reflexivity|].
    pose proof (send_text_quit_iff (λ _, None) "hello") as (_ & _ & _ & _ & H).
    apply (H (step demo_active (UiSendText "hello"))
             (Q.new 0) None eq_refl eq_refl).
    split; [discriminate | reflexivity].
Defined.

(** C10, as the claim is worded (the pipeline terminates if and only if
    the lowercase form is ["q"]): its counterexample.  The text ["hello"]
    is no quit token, yet when [session.send] raises on it the text
    pipeline ends. *)
Lemma send_failure_ends_send_text :
  let m := step demo_active (UiSendText "hello") in
  let m' := step m (StepSendText (Some (ConnectionError "lost"))) in
  PyStr.lower "hello" ≠ "q"
  ∧ task (tasks m) SendText = Running
  ∧ task (tasks m') SendText = Done.
Proof. vm_compute. split; [discriminate | split; reflexivity]. Qed.
